(** * An inverse Bloom filter: shallow embedding of [filter.go]

    The Go package [filter] keeps a fixed table of slots, each one either
    empty (a nil pointer) or pointing to the key that was last routed to it.
    [Observe] hashes a key to a slot, swaps the key in and reports whether
    the slot's former content equals the key.

    Modelling conventions.
    - A Go [[]byte] is a [list byte]; the nil slice and the empty slice both
      have length 0 and are the list [[]] (no operation of the package tells
      them apart: [bytes.Equal] compares [string(a) == string(b)]).
    - A slot of type [*[]byte] is an [option (list byte)]: [None] is the nil
      pointer, [Some k] a pointer to a slice whose bytes are [k].  This is
      the filter of a caller who does not overwrite the bytes of a key
      after handing it over; module [Aliased] keeps the slice headers and
      the caller's memory instead, [run_view] shows that the two agree for
      such a caller, and the last part of the file what happens for
      another.
    - [uint32] and [int32] values are integers of [Z]; every wrap-around of
      the source is written out with [uint32] and [int32] below.
    - A run-time panic (index out of range) is the result [None].
    - [Observe] and [getAndSet] below are one call running alone: the
      pointer loaded by [atomic.LoadPointer] is still in the slot when
      [atomic.CompareAndSwapPointer] runs, so the first iteration of the
      retry loop succeeds ([uncontended_swap]).  Module [Concurrent] has
      the loop step by step, for calls that run together under any
      schedule. *)

From Stdlib Require Import ZArith List Lia Bool Strings.Byte String.
From stdpp Require Import base list.

Local Open Scope Z_scope.

(** ** Machine integers *)

Definition uint32 (z : Z) : Z := z mod 2 ^ 32.

Definition int32 (z : Z) : Z :=
  let u := uint32 z in if u <? 2 ^ 31 then u else u - 2 ^ 32.

Definition byte_to_Z (b : byte) : Z := Z.of_N (Byte.to_N b).

(** The conversion [byte(v)] keeps the low eight bits. *)
Definition Z_to_byte (v : Z) : byte :=
  match Byte.of_N (Z.to_N (v mod 256)) with
  | Some b => b
  | None => x00
  end.

(** ** [bytes.Equal] *)

Fixpoint bytes_Equal (a b : list byte) : bool :=
  match a, b with
  | [], [] => true
  | x :: a', y :: b' => Byte.eqb x y && bytes_Equal a' b'
  | _, _ => false
  end.

(** ** The 32-bit FNV-1a accumulator of Go's [hash/fnv] ([fnv.New32a]) *)

Module fnv.

Definition offset32 : Z := 2166136261.
Definition prime32 : Z := 16777619.

(** The state of a [sum32a] is one [uint32]. *)
Definition New32a : Z := offset32.

(** [Write]: for each byte, [hash ^= c; hash *= prime32]. *)
Definition Write (s : Z) (data : list byte) : Z :=
  fold_left (fun hash c => uint32 (Z.lxor hash (byte_to_Z c) * prime32)) data s.

(** [Sum(nil)]: the four bytes of the state, most significant first. *)
Definition Sum (s : Z) : list byte :=
  [ Z_to_byte (Z.shiftr s 24); Z_to_byte (Z.shiftr s 16);
    Z_to_byte (Z.shiftr s 8); Z_to_byte s ].

Definition Reset (s : Z) : Z := offset32.

End fnv.

(** ** [uintHash.Sum32] *)

(** The slice expression [s[lo:hi]]; out of range it panics. *)
Definition slice (s : list byte) (lo hi : nat) : option (list byte) :=
  if (lo <=? hi)%nat && (hi <=? length s)%nat
  then Some (firstn (hi - lo) (skipn lo s))
  else None.

(** One round of the loop body: [x = x << 3; x += uint32(val)]. *)
Definition fold_step (x : Z) (val : byte) : Z :=
  uint32 (uint32 (Z.shiftl x 3) + byte_to_Z val).

Definition Sum32 (u : Z) : option Z :=
  let sum := fnv.Sum u in
  match sum !! 0%nat with
  | None => None
  | Some s0 =>
      match slice sum 1 3 with
      | None => None
      | Some rest => Some (fold_left fold_step rest (byte_to_Z s0))
      end
  end.

(** ** The filter *)

Inductive error : Set := ErrSizeTooLarge | ErrSizeTooSmall.

Definition MaxSize : Z := Z.shiftl 1 30.

Record InverseBloomFilter : Type := mkFilter {
  array : list (option (list byte));
  sizeMask : Z;
  hash : Z
}.

(** [int(math.Pow(2, math.Ceil(math.Log2(float64(size)))))].  The float64
    operations are read as the real functions they compute: on the
    arguments that reach this line, [1 <= size <= 2^30], the conversion to
    float64 is exact, [math.Log2] is exact on powers of two and elsewhere
    off an integer by much more than its rounding error, and [math.Pow] of
    2 to an integer below 31 is exact.  [Z.log2_up n] is the ceiling of the
    binary logarithm of [n]. *)
Definition ceil_log2 (size : Z) : Z := Z.log2_up size.

Definition round_pow2 (size : Z) : Z := 2 ^ ceil_log2 size.

Definition NewInverseBloomFilter (size : Z) : error + InverseBloomFilter :=
  if MaxSize <? size then inl ErrSizeTooLarge
  else if size <=? 0 then inl ErrSizeTooSmall
  else
    let size := round_pow2 size in
    let slice := replicate (Z.to_nat size) (@None (list byte)) in
    let sizeMask := uint32 (size - 1) in
    inr (mkFilter slice sizeMask fnv.New32a).

(** [getAndSet]: the former content of [arr[index]] ([[]] for a nil
    pointer, the zero value of [oldKey]) and the table with the new key
    stored. *)
Definition getAndSet (arr : list (option (list byte))) (index : Z)
    (key : list byte) : option (list byte * list (option (list byte))) :=
  if (index <? 0) || (Z.of_nat (length arr) <=? index) then None
  else
    match arr !! Z.to_nat index with
    | None => None
    | Some oldKeyPtr =>
        let oldKey := match oldKeyPtr with
                      | Some k => k
                      | None => []
                      end in
        Some (oldKey, <[Z.to_nat index := Some key]> arr)
    end.

(** The value of [uindex] in [Observe]. *)
Definition Observe_uindex (i : InverseBloomFilter) (key : list byte) : option Z :=
  match Sum32 (fnv.Write (hash i) key) with
  | None => None
  | Some s => Some (Z.land s (sizeMask i))
  end.

Definition Observe (i : InverseBloomFilter) (key : list byte)
    : option (bool * InverseBloomFilter) :=
  let h := fnv.Write (hash i) key in
  match Observe_uindex i key with
  | None => None
  | Some uindex =>
      let h := fnv.Reset h in
      match getAndSet (array i) (int32 uindex) key with
      | None => None
      | Some (oldId, arr) =>
          Some (bytes_Equal oldId key, mkFilter arr (sizeMask i) h)
      end
  end.

Definition Size (i : InverseBloomFilter) : Z := Z.of_nat (length (array i)).

(** A sequence of [Observe] calls, with the answers in call order. *)
Fixpoint ObserveAll (i : InverseBloomFilter) (keys : list (list byte))
    : option (list bool * InverseBloomFilter) :=
  match keys with
  | [] => Some ([], i)
  | k :: ks =>
      match Observe i k with
      | None => None
      | Some (b, i') =>
          match ObserveAll i' ks with
          | None => None
          | Some (bs, i'') => Some (b :: bs, i'')
          end
      end
  end.

Definition bytes (s : string) : list byte := list_byte_of_string s.

(** Two concrete filters: the results of [NewInverseBloomFilter 1] and of
    [NewInverseBloomFilter 10]. *)

Definition filter1 : InverseBloomFilter := mkFilter [None] 0 fnv.offset32.

Definition filter16 : InverseBloomFilter :=
  mkFilter (replicate 16 None) 15 fnv.offset32.

(** ** The index function in the words of the specification

    The 32-bit FNV-1a digest of the key, read as four bytes; the first
    three are folded with [x = (x << 3) + digest_byte[i]] and the result is
    reduced with [indexMask = N - 1]. *)

Module Spec.

Definition FNV_offset_basis : Z := 0x811c9dc5.
Definition FNV_prime : Z := 0x01000193.

(** FNV-1a: for each octet, xor it into the hash, then multiply by the
    prime, modulo [2^32]. *)
Fixpoint fnv1a (h : Z) (key : list byte) : Z :=
  match key with
  | [] => h
  | c :: rest => fnv1a ((Z.lxor h (byte_to_Z c) * FNV_prime) mod 2 ^ 32) rest
  end.

Definition fnv1a32 (key : list byte) : Z := fnv1a FNV_offset_basis key.

Definition digest_byte (key : list byte) (n : Z) : Z :=
  (fnv1a32 key / 2 ^ (8 * (3 - n))) mod 256.

Definition mix (key : list byte) : Z :=
  let x := digest_byte key 0 in
  let x := Z.shiftl x 3 + digest_byte key 1 in
  let x := Z.shiftl x 3 + digest_byte key 2 in
  x.

Definition index (N : Z) (key : list byte) : Z :=
  Z.land (mix key) (N - 1).

End Spec.

(** ** Filters a program can hold

    A filter is obtained from [NewInverseBloomFilter] and changed by
    [Observe] only. *)

Inductive reachable : InverseBloomFilter -> Prop :=
| reachable_new size i :
    NewInverseBloomFilter size = inr i -> reachable i
| reachable_observe i key b i' :
    reachable i -> Observe i key = Some (b, i') -> reachable i'.

(** The data-model invariant: a power-of-two table of at most [MaxSize]
    slots, the mask one below its length, the accumulator at rest. *)
Definition well_formed (i : InverseBloomFilter) : Prop :=
  exists k, 0 <= k <= 30 /\ Size i = 2 ^ k /\ sizeMask i = 2 ^ k - 1
            /\ hash i = fnv.offset32.

(** Every key held by a slot is one of [seen]. *)
Definition slots_within (seen : list (list byte)) (i : InverseBloomFilter) : Prop :=
  forall j k, array i !! j = Some (Some k) -> In k seen.

(** The content of slot [u] after the calls [keys] when it held [s0]
    before them: the last key of [keys] that [Observe] sends to [u], and
    [s0] when there is none. *)
Definition last_routed (i : InverseBloomFilter) (u : Z)
    (keys : list (list byte)) (s0 : option (list byte)) : option (list byte) :=
  fold_left (fun s k => match Observe_uindex i k with
                        | Some v => if v =? u then Some k else s
                        | None => s
                        end) keys s0.

(** The result of [NewInverseBloomFilter 20000]. *)
Definition filter32768 : InverseBloomFilter :=
  mkFilter (replicate (Z.to_nat 32768) None) 32767 fnv.offset32.

(** [filter16] after [Observe] of "alpha", which goes to slot 5. *)
Definition filter16_alpha : InverseBloomFilter :=
  mkFilter (<[5%nat := Some (bytes "alpha")]> (replicate 16 None)) 15 fnv.offset32.

(** ** Keys as slices of the caller's memory

    [getAndSet] stores [&key], the address of a slice header, and the
    header points into a backing array that belongs to the caller.  Here
    the slots hold headers and the bytes are read from the caller's memory
    whenever a slot is compared, so that a caller who writes into an array
    after handing a slice of it to [Observe] changes what the slot holds.
    Everything else is the code as above. *)

Module Aliased.

(** A slice header: the backing array [buf] and the window [lo, hi) of it. *)
Record slice : Type := mkSlice { buf : nat; lo : nat; hi : nat }.

(** The bytes a header shows in the memory [m], a list of backing arrays. *)
Definition load (m : list (list byte)) (s : slice) : list byte :=
  match m !! buf s with
  | Some a => firstn (hi s - lo s) (skipn (lo s) a)
  | None => []
  end.

(** The caller's [copy(a, data)] into the whole backing array [b]. *)
Definition copy (m : list (list byte)) (b : nat) (data : list byte)
    : list (list byte) :=
  match m !! b with
  | Some a => <[b := firstn (length a) data ++ skipn (length data) a]> m
  | None => m
  end.

Record InverseBloomFilter : Type := mkFilter {
  array : list (option slice);
  sizeMask : Z;
  hash : Z
}.

Definition NewInverseBloomFilter (size : Z) : error + InverseBloomFilter :=
  if MaxSize <? size then inl ErrSizeTooLarge
  else if size <=? 0 then inl ErrSizeTooSmall
  else
    let size := round_pow2 size in
    let slice := replicate (Z.to_nat size) (@None slice) in
    let sizeMask := uint32 (size - 1) in
    inr (mkFilter slice sizeMask fnv.New32a).

Definition getAndSet (m : list (list byte)) (arr : list (option slice))
    (index : Z) (key : slice) : option (list byte * list (option slice)) :=
  if (index <? 0) || (Z.of_nat (length arr) <=? index) then None
  else
    match arr !! Z.to_nat index with
    | None => None
    | Some oldKeyPtr =>
        let oldKey := match oldKeyPtr with
                      | Some s => load m s
                      | None => []
                      end in
        Some (oldKey, <[Z.to_nat index := Some key]> arr)
    end.

Definition Observe (m : list (list byte)) (i : InverseBloomFilter)
    (key : slice) : option (bool * InverseBloomFilter) :=
  let h := fnv.Write (hash i) (load m key) in
  match Sum32 h with
  | None => None
  | Some s =>
      let uindex := Z.land s (sizeMask i) in
      let h := fnv.Reset h in
      match getAndSet m (array i) (int32 uindex) key with
      | None => None
      | Some (oldId, arr) =>
          Some (bytes_Equal oldId (load m key), mkFilter arr (sizeMask i) h)
      end
  end.

(** What a caller does between and with the calls. *)
Inductive action : Type :=
| Call (key : slice)
| Copy (b : nat) (data : list byte).

(** A caller's program: the answers of its calls in order, and the memory
    and the filter at its end. *)
Fixpoint run (m : list (list byte)) (i : InverseBloomFilter)
    (prog : list action)
    : option (list bool * (list (list byte) * InverseBloomFilter)) :=
  match prog with
  | [] => Some ([], (m, i))
  | Call key :: rest =>
      match Observe m i key with
      | None => None
      | Some (b, i') =>
          match run m i' rest with
          | None => None
          | Some (bs, r) => Some (b :: bs, r)
          end
      end
  | Copy b data :: rest => run (copy m b data) i rest
  end.

(** The bytes each call of the program is given, at the time of the call. *)
Fixpoint call_keys (m : list (list byte)) (prog : list action)
    : list (list byte) :=
  match prog with
  | [] => []
  | Call key :: rest => load m key :: call_keys m rest
  | Copy b data :: rest => call_keys (copy m b data) rest
  end.

(** The program never copies into a backing array of [handed], nor into
    one it has handed to a call before. *)
Fixpoint keeps_keys (handed : list nat) (prog : list action) : bool :=
  match prog with
  | [] => true
  | Call key :: rest => keeps_keys (buf key :: handed) rest
  | Copy b _ :: rest => negb (existsb (Nat.eqb b) handed) && keeps_keys handed rest
  end.

End Aliased.

(** The filter of the model above that shows what the headers show now. *)
Definition view (m : list (list byte)) (i : Aliased.InverseBloomFilter)
    : InverseBloomFilter :=
  mkFilter (option_map (Aliased.load m) <$> Aliased.array i)
           (Aliased.sizeMask i) (Aliased.hash i).

(** Every header in a slot points into a backing array of [handed]. *)
Definition slots_point_into (handed : list nat) (i : Aliased.InverseBloomFilter)
    : Prop :=
  forall j s, Aliased.array i !! j = Some (Some s) -> In (Aliased.buf s) handed.

(** A caller's memory with three backing arrays, the slices that show
    them whole, and the fresh filter of 16 slots. *)
Definition memory3 : list (list byte) := [bytes "alpha"; bytes "beta"; bytes "gamma"].

Definition slice_alpha : Aliased.slice := Aliased.mkSlice 0 0 5.
Definition slice_beta : Aliased.slice := Aliased.mkSlice 1 0 4.
Definition slice_gamma : Aliased.slice := Aliased.mkSlice 2 0 5.

Definition aliased16 : Aliased.InverseBloomFilter :=
  Aliased.mkFilter (replicate 16 None) 15 fnv.offset32.

(** ** Concurrent calls of [Observe]

    Several goroutines call [Observe] on one filter.  Every access to the
    shared memory is one atomic step of the calling goroutine, and a
    schedule, any list of goroutine numbers, says who moves next:
    - [fnv]'s [Write] reads the accumulator, folds the key into its own
      copy, and stores the copy back: two steps;
    - [Sum32] reads the accumulator: one step; [Reset] stores: one step;
    - [getAndSet] checks the index once, then loops over
      [atomic.LoadPointer] and [atomic.CompareAndSwapPointer], one step
      each; a failed compare-and-swap goes back to the load.
    A slot holds a pointer: [Prior j], the pointer slot [j] held when the
    goroutines started, or [Arg t], the address [&key] of call [t]; the
    compare-and-swap compares pointers.  The [trace] is a ghost record of
    the successful swaps, latest first; no step reads it. *)

Module Concurrent.

Inductive ptr : Type :=
| Prior (j : nat)
| Arg (t : nat).

#[global] Instance ptr_eq_dec : EqDecision ptr.
Proof. solve_decision. Defined.

Inductive pc : Type :=
| Write_load
| Write_store (h : Z)
| Sum32_load
| Reset_store (uindex : Z)
| Load (index : Z)
| CAS (index : Z) (oldKeyUnsafe : option ptr)
| Returned (index : Z) (oldKeyUnsafe : option ptr)
| Panicked.

Record state : Type := mkState {
  hash : Z;
  array : list (option ptr);
  calls : list (list byte * pc);
  trace : list (nat * Z * option ptr)
}.

Definition goto (t : nat) (key : list byte) (p : pc) (s : state) : state :=
  mkState (hash s) (array s) (<[t := (key, p)]> (calls s)) (trace s).

(** One atomic step of call [t]; a call that has returned does not move. *)
Definition step (sizeMask : Z) (t : nat) (s : state) : state :=
  match calls s !! t with
  | None => s
  | Some (key, p) =>
      match p with
      | Write_load => goto t key (Write_store (hash s)) s
      | Write_store h =>
          mkState (fnv.Write h key) (array s)
                  (<[t := (key, Sum32_load)]> (calls s)) (trace s)
      | Sum32_load =>
          match Sum32 (hash s) with
          | Some x => goto t key (Reset_store (Z.land x sizeMask)) s
          | None => goto t key Panicked s
          end
      | Reset_store uindex =>
          let index := int32 uindex in
          mkState (fnv.Reset (hash s)) (array s)
                  (<[t := (key,
                           if (index <? 0) || (Z.of_nat (length (array s)) <=? index)
                           then Panicked else Load index)]> (calls s))
                  (trace s)
      | Load index =>
          match array s !! Z.to_nat index with
          | Some oldKeyUnsafe => goto t key (CAS index oldKeyUnsafe) s
          | None => goto t key Panicked s
          end
      | CAS index oldKeyUnsafe =>
          if decide (array s !! Z.to_nat index = Some oldKeyUnsafe)
          then mkState (hash s)
                       (<[Z.to_nat index := Some (Arg t)]> (array s))
                       (<[t := (key, Returned index oldKeyUnsafe)]> (calls s))
                       ((t, index, oldKeyUnsafe) :: trace s)
          else goto t key (Load index) s
      | Returned _ _ => s
      | Panicked => s
      end
  end.

Definition exec (sizeMask : Z) (sched : list nat) (s : state) : state :=
  fold_left (fun s t => step sizeMask t s) sched s.

(** The start: the accumulator and the slots as the sequential calls left
    them, every call at its first step. *)
Definition prior_pointers (slots : list (option (list byte))) : list (option ptr) :=
  imap (fun j o => match o with
                   | Some _ => Some (Prior j)
                   | None => None
                   end) slots.

Definition start (h : Z) (slots : list (option (list byte)))
    (keys : list (list byte)) : state :=
  mkState h (prior_pointers slots) ((fun k => (k, Write_load)) <$> keys) [].

(** The bytes behind a pointer, and the answer of a call that returned:
    [bytes.Equal(oldId, key)]. *)
Definition deref (slots : list (option (list byte))) (s : state)
    (p : option ptr) : list byte :=
  match p with
  | None => []
  | Some (Prior j) => match slots !! j with
                      | Some (Some k) => k
                      | _ => []
                      end
  | Some (Arg t) => match calls s !! t with
                    | Some (k, _) => k
                    | None => []
                    end
  end.

Definition answer (slots : list (option (list byte))) (s : state) (t : nat)
    : option bool :=
  match calls s !! t with
  | Some (key, Returned _ old) => Some (bytes_Equal (deref slots s old) key)
  | _ => None
  end.

(** The swaps made on slot [j], latest first, each with the pointer it
    took out. *)
Fixpoint slot_trace (j : Z) (tr : list (nat * Z * option ptr))
    : list (nat * option ptr) :=
  match tr with
  | [] => []
  | (t, index, old) :: r =>
      if index =? j then (t, old) :: slot_trace j r else slot_trace j r
  end.

(** The pointer a slot holds after the swaps [tr] when it held [p0]. *)
Definition head_ptr (p0 : option ptr) (tr : list (nat * option ptr)) : option ptr :=
  match tr with
  | [] => p0
  | (t, _) :: _ => Some (Arg t)
  end.

(** Each swap took out what the swap before it had put in, the first one
    what the slot held at the start. *)
Fixpoint chained (p0 : option ptr) (tr : list (nat * option ptr)) : Prop :=
  match tr with
  | [] => True
  | (_, old) :: r => old = head_ptr p0 r /\ chained p0 r
  end.

(** Steps still to take: a bound used for termination. *)
Definition active (c : list byte * pc) : nat :=
  match snd c with
  | Returned _ _ | Panicked => 0
  | _ => 1
  end.

Definition weight (arr : list (option ptr)) (c : list byte * pc) : nat :=
  match snd c with
  | Write_load => 6
  | Write_store _ => 5
  | Sum32_load => 4
  | Reset_store _ => 3
  | Load _ => 2
  | CAS index old => if decide (arr !! Z.to_nat index = Some old) then 1 else 3
  | Returned _ _ | Panicked => 0
  end.

Fixpoint total (f : list byte * pc -> nat) (l : list (list byte * pc)) : nat :=
  match l with
  | [] => 0
  | c :: r => f c + total f r
  end.

Definition measure (s : state) : nat :=
  (total active (calls s) * total active (calls s)
   + total (weight (array s)) (calls s))%nat.

(** The steps a schedule makes calls take (picks of returned calls are
    not counted). *)
Fixpoint work (sizeMask : Z) (sched : list nat) (s : state) : nat :=
  match sched with
  | [] => 0
  | t :: r =>
      (match calls s !! t with
       | Some c => active c
       | None => 0
       end + work sizeMask r (step sizeMask t s))%nat
  end.

(** Where a call can be: its index inside the table, and never panicked. *)
Definition pc_ok (L : nat) (p : pc) : Prop :=
  match p with
  | Reset_store uindex => 0 <= uindex < Z.of_nat L /\ uindex < 2 ^ 31
  | Load index | CAS index _ | Returned index _ => 0 <= index < Z.of_nat L
  | Panicked => False
  | _ => True
  end.

(** What every schedule keeps, for the slots [init] at the start and the
    keys of the calls. *)
Definition inv (init : list (option ptr)) (keys : list (list byte))
    (s : state) : Prop :=
  length (array s) = length init
  /\ fst <$> calls s = keys
  /\ (forall t key p, calls s !! t = Some (key, p) -> pc_ok (length init) p)
  /\ (forall j p0, init !! j = Some p0 ->
        array s !! j = Some (head_ptr p0 (slot_trace (Z.of_nat j) (trace s)))
        /\ chained p0 (slot_trace (Z.of_nat j) (trace s)))
  /\ (forall t index old,
        (exists key, calls s !! t = Some (key, Returned index old))
        <-> In (t, index, old) (trace s))
  /\ NoDup ((fun e => fst (fst e)) <$> trace s).

End Concurrent.

(** * Properties *)

(** ** Bytes and machine integers *)

Lemma bytes_Equal_iff a b : bytes_Equal a b = true <-> a = b.
Proof.
  revert b; induction a as [|x a IH]; intros [|y b]; simpl; try easy.
  rewrite andb_true_iff, IH. split.
  - intros [Hx ->]. now rewrite (Byte.byte_dec_bl _ _ Hx).
  - intros [= -> ->]. split; [now apply Byte.byte_dec_lb | reflexivity].
Qed.

Lemma bytes_Equal_refl a : bytes_Equal a a = true.
Proof. now apply bytes_Equal_iff. Qed.

Lemma bytes_Equal_neq a b : a <> b -> bytes_Equal a b = false.
Proof.
  intros Hne. destruct (bytes_Equal a b) eqn:E; [|reflexivity].
  now apply bytes_Equal_iff in E.
Qed.

Lemma byte_to_Z_to_byte v : byte_to_Z (Z_to_byte v) = v mod 256.
Proof.
  unfold byte_to_Z, Z_to_byte.
  assert (Hr : 0 <= v mod 256 < 256) by (apply Z.mod_pos_bound; lia).
  destruct (Byte.of_N (Z.to_N (v mod 256))) as [b|] eqn:E.
  - apply Byte.to_of_N in E. rewrite E. lia.
  - apply Byte.of_N_None_iff in E. lia.
Qed.

Lemma uint32_small z : 0 <= z < 2 ^ 32 -> uint32 z = z.
Proof. intros H. unfold uint32. now apply Z.mod_small. Qed.

Lemma int32_small z : 0 <= z < 2 ^ 31 -> int32 z = z.
Proof.
  intros H. unfold int32. rewrite uint32_small by lia.
  destruct (z <? 2 ^ 31) eqn:E; [reflexivity | lia].
Qed.

(** ** The hash and the index *)

Lemma Write_fnv1a s key : fnv.Write s key = Spec.fnv1a s key.
Proof.
  revert s. induction key as [|c key IH]; intros s; [reflexivity|].
  cbn [Spec.fnv1a]. rewrite <- IH. reflexivity.
Qed.

Lemma Write_offset32 key : fnv.Write fnv.offset32 key = Spec.fnv1a32 key.
Proof. apply Write_fnv1a. Qed.

(** Published FNV-1a test vectors. *)
Example fnv1a32_vectors :
  Spec.fnv1a32 (bytes "") = 0x811c9dc5
  /\ Spec.fnv1a32 (bytes "a") = 0xe40c292c
  /\ Spec.fnv1a32 (bytes "foobar") = 0xbf9cf968.
Proof. repeat split; vm_compute; reflexivity. Qed.

(** [Sum32] never panics: the digest has four bytes, and the fold of its
    first three does not wrap. *)
Lemma Sum32_value u :
  Sum32 u = Some (Z.shiftl (Z.shiftl ((u / 2 ^ 24) mod 256) 3
                            + (u / 2 ^ 16) mod 256) 3
                  + (u / 2 ^ 8) mod 256).
Proof.
  unfold Sum32, fnv.Sum, slice. simpl. unfold fold_step.
  rewrite !byte_to_Z_to_byte, !Z.shiftr_div_pow2 by lia.
  assert (H0 : 0 <= (u / 2 ^ 24) mod 256 < 256) by (apply Z.mod_pos_bound; lia).
  assert (H1 : 0 <= (u / 2 ^ 16) mod 256 < 256) by (apply Z.mod_pos_bound; lia).
  assert (H2 : 0 <= (u / 2 ^ 8) mod 256 < 256) by (apply Z.mod_pos_bound; lia).
  set (b0 := (u / 2 ^ 24) mod 256) in *.
  set (b1 := (u / 2 ^ 16) mod 256) in *.
  set (b2 := (u / 2 ^ 8) mod 256) in *.
  rewrite !Z.shiftl_mul_pow2 by lia.
  rewrite (uint32_small (b0 * 2 ^ 3)) by lia.
  rewrite (uint32_small (b0 * 2 ^ 3 + b1)) by lia.
  rewrite (uint32_small ((b0 * 2 ^ 3 + b1) * 2 ^ 3)) by lia.
  rewrite (uint32_small ((b0 * 2 ^ 3 + b1) * 2 ^ 3 + b2)) by lia.
  reflexivity.
Qed.

Lemma Sum32_Write_mix key :
  Sum32 (fnv.Write fnv.offset32 key) = Some (Spec.mix key).
Proof. rewrite Sum32_value, Write_offset32. reflexivity. Qed.

Lemma mix_range key : 0 <= Spec.mix key <= 18615.
Proof.
  unfold Spec.mix, Spec.digest_byte.
  set (h := Spec.fnv1a32 key).
  assert (H0 : 0 <= (h / 2 ^ (8 * (3 - 0))) mod 256 < 256) by (apply Z.mod_pos_bound; lia).
  assert (H1 : 0 <= (h / 2 ^ (8 * (3 - 1))) mod 256 < 256) by (apply Z.mod_pos_bound; lia).
  assert (H2 : 0 <= (h / 2 ^ (8 * (3 - 2))) mod 256 < 256) by (apply Z.mod_pos_bound; lia).
  rewrite !Z.shiftl_mul_pow2 by lia. lia.
Qed.

Lemma land_mask_range x k :
  0 <= x -> 0 <= k -> 0 <= Z.land x (2 ^ k - 1) < 2 ^ k /\ Z.land x (2 ^ k - 1) <= x.
Proof.
  intros Hx Hk.
  replace (2 ^ k - 1) with (Z.ones k) by (rewrite Z.ones_equiv; lia).
  rewrite Z.land_ones by lia.
  assert (0 < 2 ^ k) by (apply Z.pow_pos_nonneg; lia).
  split; [apply Z.mod_pos_bound; lia | apply Z.mod_le; lia].
Qed.

(** ** The invariant *)

Lemma round_pow2_spec size :
  0 < size -> 0 <= ceil_log2 size /\ size <= round_pow2 size < 2 * size.
Proof.
  intros Hs. unfold round_pow2, ceil_log2.
  destruct (Z.eq_dec size 1) as [->|Hne]; [vm_compute; intuition congruence|].
  destruct (Z.log2_up_spec size) as [Hlo Hhi]; [lia|].
  pose proof (Z.log2_up_pos size ltac:(lia)) as Hpos.
  replace (Z.log2_up size) with (Z.succ (Z.pred (Z.log2_up size))) at 3 by lia.
  rewrite Z.pow_succ_r by lia. lia.
Qed.

(** [ceil_log2] is the ceiling of the binary logarithm: the integer [c]
    with [2^(c-1) < size <= 2^c]. *)
Lemma ceil_log2_spec size :
  1 < size -> 2 ^ (ceil_log2 size - 1) < size <= 2 ^ ceil_log2 size.
Proof.
  intros H. unfold ceil_log2.
  replace (Z.log2_up size - 1) with (Z.pred (Z.log2_up size)) by lia.
  now apply Z.log2_up_spec.
Qed.

Lemma ceil_log2_le_30 size : 0 < size <= MaxSize -> ceil_log2 size <= 30.
Proof.
  intros H. unfold ceil_log2. apply Z.log2_up_le_pow2; [lia|].
  change (2 ^ 30) with MaxSize. lia.
Qed.

Lemma New_inr size i :
  NewInverseBloomFilter size = inr i ->
  0 < size <= MaxSize /\
  i = mkFilter (replicate (Z.to_nat (round_pow2 size)) None)
               (round_pow2 size - 1) fnv.offset32.
Proof.
  unfold NewInverseBloomFilter.
  destruct (MaxSize <? size) eqn:E1; [discriminate|].
  destruct (size <=? 0) eqn:E2; [discriminate|].
  intros [= <-]. split; [lia|].
  assert (Hs : 0 < size <= MaxSize) by lia.
  pose proof (round_pow2_spec size ltac:(lia)) as [Hk Hr].
  pose proof (ceil_log2_le_30 size Hs) as Hk30.
  assert (round_pow2 size <= 2 ^ 30).
  { unfold round_pow2. apply Z.pow_le_mono_r; lia. }
  rewrite uint32_small by lia. reflexivity.
Qed.

Lemma New_well_formed size i :
  NewInverseBloomFilter size = inr i -> well_formed i.
Proof.
  intros H. apply New_inr in H as [Hs ->].
  pose proof (round_pow2_spec size ltac:(lia)) as [Hk Hr].
  exists (ceil_log2 size). unfold Size. simpl.
  rewrite length_replicate, Z2Nat.id by lia.
  pose proof (ceil_log2_le_30 size Hs). unfold round_pow2. intuition lia.
Qed.

Lemma well_formed_uindex i key :
  well_formed i ->
  Observe_uindex i key = Some (Spec.index (Size i) key)
  /\ 0 <= Spec.index (Size i) key < Size i
  /\ int32 (Spec.index (Size i) key) = Spec.index (Size i) key.
Proof.
  intros (k & Hk & HN & Hmask & Hh).
  unfold Observe_uindex, Spec.index.
  rewrite Hh, Sum32_Write_mix, Hmask, HN.
  pose proof (mix_range key) as Hm.
  destruct (land_mask_range (Spec.mix key) k) as [Hr Hle]; [lia..|].
  repeat split; try lia.
  apply int32_small. lia.
Qed.

(** What one call does to a well-formed filter: it reads the slot at the
    index, compares the bytes found there (none for a nil pointer) with the
    key, and leaves the key in the slot. *)
Lemma Observe_step i key :
  well_formed i ->
  exists old,
    array i !! Z.to_nat (Spec.index (Size i) key) = Some old
    /\ Observe i key =
       Some (bytes_Equal (default [] old) key,
             mkFilter (<[Z.to_nat (Spec.index (Size i) key) := Some key]> (array i))
                      (sizeMask i) fnv.offset32).
Proof.
  intros Hwf. destruct (well_formed_uindex i key Hwf) as (Hu & Hr & H32).
  set (u := Spec.index (Size i) key) in *.
  assert (Hlt : (Z.to_nat u < length (array i))%nat) by (unfold Size in Hr; lia).
  destruct (lookup_lt_is_Some_2 _ _ Hlt) as [old Hold].
  exists old. split; [exact Hold|].
  unfold Observe, getAndSet. rewrite Hu, H32.
  destruct (u <? 0) eqn:E1; [lia|].
  fold (Size i). destruct (Size i <=? u) eqn:E2; [lia|].
  simpl. rewrite Hold. destruct old; reflexivity.
Qed.

Lemma Observe_well_formed i key b i' :
  well_formed i -> Observe i key = Some (b, i') -> well_formed i'.
Proof.
  intros Hwf H. destruct (Observe_step i key Hwf) as (old & _ & Heq).
  rewrite Heq in H. injection H as _ <-.
  destruct Hwf as (k & Hk & HN & Hmask & Hh).
  exists k. unfold Size in *. simpl. rewrite length_insert. auto.
Qed.

Lemma reachable_well_formed i : reachable i -> well_formed i.
Proof.
  induction 1 as [size i H | i key b i' _ IH H].
  - eapply New_well_formed; eauto.
  - eapply Observe_well_formed; eauto.
Qed.

Lemma Observe_total i key :
  well_formed i -> exists b i', Observe i key = Some (b, i').
Proof.
  intros Hwf. destruct (Observe_step i key Hwf) as (old & _ & Heq). eauto.
Qed.

Lemma ObserveAll_reachable i keys bs i' :
  reachable i -> ObserveAll i keys = Some (bs, i') -> reachable i'.
Proof.
  revert i bs i'. induction keys as [|k ks IH]; intros i bs i' Hr; cbn [ObserveAll].
  - now intros [= _ <-].
  - destruct (Observe i k) as [[b j]|] eqn:E; [|discriminate].
    destruct (ObserveAll j ks) as [[bs' j']|] eqn:E'; [|discriminate].
    intros [= _ <-]. eapply IH; [|exact E']. eapply reachable_observe; eauto.
Qed.

Lemma ObserveAll_total i keys :
  well_formed i -> exists bs i', ObserveAll i keys = Some (bs, i').
Proof.
  revert i. induction keys as [|k ks IH]; intros i Hwf; cbn [ObserveAll]; [eauto|].
  destruct (Observe_total i k Hwf) as (b & j & E). rewrite E.
  destruct (IH j) as (bs & j' & E'); [eapply Observe_well_formed; eauto|].
  rewrite E'. eauto.
Qed.

Lemma Observe_Size i key b i' :
  Observe i key = Some (b, i') -> Size i' = Size i /\ sizeMask i' = sizeMask i
                                  /\ hash i' = fnv.New32a.
Proof.
  unfold Observe. destruct (Observe_uindex i key) as [u|]; [|discriminate].
  unfold getAndSet.
  destruct ((int32 u <? 0) || (Z.of_nat (length (array i)) <=? int32 u)); [discriminate|].
  destruct (array i !! Z.to_nat (int32 u)) as [old|]; [|discriminate].
  intros [= _ <-]. unfold Size. simpl. rewrite length_insert. auto.
Qed.

Lemma ObserveAll_Size i keys bs i' :
  ObserveAll i keys = Some (bs, i') ->
  Size i' = Size i /\ sizeMask i' = sizeMask i.
Proof.
  revert i bs i'. induction keys as [|k ks IH]; intros i bs i'; cbn [ObserveAll].
  - now intros [= _ <-].
  - destruct (Observe i k) as [[b j]|] eqn:E; [|discriminate].
    destruct (ObserveAll j ks) as [[bs' j']|] eqn:E'; [|discriminate].
    intros [= _ <-]. apply Observe_Size in E as (H1 & H2 & _).
    rewrite <- H1, <- H2. eapply IH; eauto.
Qed.

(** ** Two concrete filters *)

Lemma New_1 : NewInverseBloomFilter 1 = inr filter1.
Proof. reflexivity. Qed.

Lemma New_10 : NewInverseBloomFilter 10 = inr filter16.
Proof. reflexivity. Qed.

Lemma reachable_filter1 : reachable filter1.
Proof. apply (reachable_new 1). reflexivity. Defined.

Lemma reachable_filter16 : reachable filter16.
Proof. apply (reachable_new 10). reflexivity. Defined.

(** The example of the specification: a filter asked for 10 slots has 16;
    "alpha" is new, then known; "beta" is new. *)
Example alpha_alpha_beta :
  Size filter16 = 16
  /\ option_map fst (ObserveAll filter16 [bytes "alpha"; bytes "alpha"; bytes "beta"])
     = Some [false; true; false].
Proof. split; vm_compute; reflexivity. Qed.

(** ** Index computation *)

(** C3. On every filter a program can hold and for every key, the index
    [Observe] uses is the specified function of the key: the first three
    bytes of the FNV-1a digest folded with [x = (x << 3) + byte], masked
    with [indexMask = N - 1].  The index lies in [0, N), survives the
    conversion to [int32], and is the slot that [Observe] reads and
    overwrites. *)
Theorem Observe_index_computation i key :
  reachable i ->
  sizeMask i = Size i - 1
  /\ Observe_uindex i key = Some (Spec.index (Size i) key)
  /\ int32 (Spec.index (Size i) key) = Spec.index (Size i) key
  /\ 0 <= Spec.index (Size i) key < Size i
  /\ exists old,
       array i !! Z.to_nat (Spec.index (Size i) key) = Some old
       /\ Observe i key =
          Some (bytes_Equal (default [] old) key,
                mkFilter (<[Z.to_nat (Spec.index (Size i) key) := Some key]> (array i))
                         (sizeMask i) fnv.offset32).
Proof.
  intros Hr. apply reachable_well_formed in Hr.
  destruct (well_formed_uindex i key Hr) as (Hu & Hrange & H32).
  split; [|auto using Observe_step].
  destruct Hr as (k & _ & -> & -> & _). reflexivity.
Qed.

Lemma Observe_index_computation_witness :
  reachable filter16
  /\ sizeMask filter16 = Size filter16 - 1
  /\ Observe_uindex filter16 (bytes "alpha")
     = Some (Spec.index (Size filter16) (bytes "alpha")).
Proof.
  split; [exact reachable_filter16|].
  destruct (Observe_index_computation filter16 (bytes "alpha") reachable_filter16)
    as (H1 & H2 & _).
  split; [exact H1 | exact H2].
Defined.

(** ** Construction *)

Lemma New_inr_iff size :
  (exists i, NewInverseBloomFilter size = inr i) <-> 0 < size <= MaxSize.
Proof.
  unfold NewInverseBloomFilter.
  destruct (MaxSize <? size) eqn:E1; [split; [intros [? [=]] | lia]|].
  destruct (size <=? 0) eqn:E2; [split; [intros [? [=]] | lia]|].
  split; [lia | eauto].
Qed.

(** C4. [NewInverseBloomFilter size] fails with [ErrSizeTooSmall] exactly
    when [size <= 0], with [ErrSizeTooLarge] exactly when [size > MaxSize],
    and returns a filter exactly for the sizes in between, [MaxSize = 2^30]
    included; the two errors are different values. *)
Theorem New_error_contract size :
  (NewInverseBloomFilter size = inl ErrSizeTooSmall <-> size <= 0)
  /\ (NewInverseBloomFilter size = inl ErrSizeTooLarge <-> MaxSize < size)
  /\ ((exists i, NewInverseBloomFilter size = inr i) <-> 0 < size <= MaxSize)
  /\ MaxSize = 2 ^ 30
  /\ (exists i, NewInverseBloomFilter MaxSize = inr i)
  /\ ErrSizeTooSmall <> ErrSizeTooLarge.
Proof.
  assert (HM : MaxSize = 2 ^ 30) by reflexivity.
  split; [|split; [|split; [apply New_inr_iff|split; [exact HM|split; [|discriminate]]]]].
  - unfold NewInverseBloomFilter.
    destruct (MaxSize <? size) eqn:E1; [split; [discriminate | lia]|].
    destruct (size <=? 0) eqn:E2; split; (reflexivity || discriminate || lia).
  - unfold NewInverseBloomFilter.
    destruct (MaxSize <? size) eqn:E1; [split; [lia | reflexivity]|].
    destruct (size <=? 0) eqn:E2; split; (discriminate || lia).
  - apply New_inr_iff. lia.
Qed.

(** C5. For every [size] in (0, MaxSize] the filter returned has a table
    whose length is the smallest power of two at least [size]: a power of
    two, at least [size], below [size * 2], no larger than any other power
    of two that is at least [size], and equal to [size] exactly when [size]
    is a power of two.  Every slot starts empty. *)
Theorem New_size_rounding size :
  0 < size <= MaxSize ->
  exists i,
    NewInverseBloomFilter size = inr i
    /\ (exists k, 0 <= k /\ Size i = 2 ^ k)
    /\ size <= Size i
    /\ Size i < size * 2
    /\ (forall k, 0 <= k -> size <= 2 ^ k -> Size i <= 2 ^ k)
    /\ (Size i = size <-> exists k, 0 <= k /\ size = 2 ^ k)
    /\ array i = replicate (Z.to_nat (Size i)) None.
Proof.
  intros Hs.
  destruct (proj2 (New_inr_iff size) Hs) as [i Hi].
  exists i. split; [exact Hi|].
  apply New_inr in Hi as [_ ->].
  pose proof (round_pow2_spec size ltac:(lia)) as [Hk Hr].
  unfold Size. cbn [array]. rewrite length_replicate, Z2Nat.id by lia.
  repeat split; try lia.
  - exists (ceil_log2 size). split; [lia | reflexivity].
  - intros k Hk0 Hle. unfold round_pow2, ceil_log2.
    apply Z.pow_le_mono_r; [lia|]. apply Z.log2_up_le_pow2; lia.
  - intros Heq. exists (ceil_log2 size). split; [lia|].
    unfold round_pow2 in Heq. lia.
  - intros (k & Hk0 & ->). unfold round_pow2, ceil_log2.
    now rewrite Z.log2_up_pow2.
Qed.

Lemma New_size_rounding_witness :
  0 < 10 <= MaxSize
  /\ exists i, NewInverseBloomFilter 10 = inr i /\ Size i = 16.
Proof.
  assert (H : 0 < 10 <= MaxSize) by (split; [reflexivity | discriminate]).
  split; [exact H|].
  destruct (New_size_rounding 10 H) as (i & Hi & _).
  exists i. split; [exact Hi|].
  rewrite New_10 in Hi. injection Hi as <-. reflexivity.
Defined.

(** ** Determinism and frame *)

(** C8. The slot index depends on the key alone (and on the fixed table
    length): every filter a program can hold has its accumulator in the
    initial state when a call starts, so the index of a key is the
    specified function of it; two filters of one size agree on it, and so
    does one filter before and after any sequence of [Observe] calls, each
    of which leaves the accumulator reset. *)
Theorem index_deterministic i key :
  reachable i ->
  hash i = fnv.New32a
  /\ Observe_uindex i key = Some (Spec.index (Size i) key)
  /\ (forall j, reachable j -> Size j = Size i ->
        Observe_uindex j key = Observe_uindex i key)
  /\ (forall keys bs i', ObserveAll i keys = Some (bs, i') ->
        hash i' = fnv.New32a
        /\ Observe_uindex i' key = Observe_uindex i key).
Proof.
  intros Hr. pose proof (reachable_well_formed i Hr) as Hwf.
  destruct (well_formed_uindex i key Hwf) as (Hu & _).
  split; [destruct Hwf as (k & _ & _ & _ & Hh); exact Hh|].
  split; [exact Hu|]. split.
  - intros j Hj Hsz. apply reachable_well_formed in Hj.
    destruct (well_formed_uindex j key Hj) as (Huj & _).
    now rewrite Huj, Hu, Hsz.
  - intros keys bs i' Hall.
    pose proof (ObserveAll_reachable _ _ _ _ Hr Hall) as Hr'.
    apply reachable_well_formed in Hr'.
    destruct (well_formed_uindex i' key Hr') as (Hu' & _).
    destruct (ObserveAll_Size _ _ _ _ Hall) as [Hsz _].
    split; [destruct Hr' as (k & _ & _ & _ & Hh); exact Hh|].
    now rewrite Hu', Hu, Hsz.
Qed.

Lemma index_deterministic_witness :
  reachable filter16
  /\ hash filter16 = fnv.New32a
  /\ exists bs i',
       ObserveAll filter16 [bytes "beta"; bytes "alpha"] = Some (bs, i')
       /\ Observe_uindex i' (bytes "alpha") = Observe_uindex filter16 (bytes "alpha").
Proof.
  split; [exact reachable_filter16|].
  destruct (index_deterministic filter16 (bytes "alpha") reachable_filter16)
    as (Hh & _ & _ & Hseq).
  split; [exact Hh|].
  destruct (ObserveAll_total filter16 [bytes "beta"; bytes "alpha"]
              (reachable_well_formed _ reachable_filter16)) as (bs & i' & H).
  exists bs, i'. split; [exact H | exact (proj2 (Hseq _ bs i' H))].
Defined.

(** The reset is what makes this so: with the accumulator left as "beta"
    put it, the index of "alpha" would be that of "betaalpha". *)
Example index_without_reset :
  let i := mkFilter (replicate 16 None) 15 (fnv.Write fnv.offset32 (bytes "beta")) in
  Observe_uindex i (bytes "alpha") = Some (Spec.index 16 (bytes "betaalpha"))
  /\ Spec.index 16 (bytes "betaalpha") <> Spec.index 16 (bytes "alpha").
Proof. split; vm_compute; [reflexivity | discriminate]. Qed.

(** C10. On every filter a program can hold, [Observe] returns, with an
    index inside the table, and changes nothing but the slot at that index:
    every other slot, the table length (so [Size]), the mask and the resting
    accumulator are as before. *)
Theorem Observe_frame i key :
  reachable i ->
  exists b i' u,
    Observe i key = Some (b, i')
    /\ Observe_uindex i key = Some u
    /\ 0 <= u < Size i
    /\ array i' !! Z.to_nat u = Some (Some key)
    /\ (forall j, j <> Z.to_nat u -> array i' !! j = array i !! j)
    /\ length (array i') = length (array i)
    /\ Size i' = Size i
    /\ sizeMask i' = sizeMask i
    /\ hash i' = hash i.
Proof.
  intros Hr. apply reachable_well_formed in Hr.
  destruct (well_formed_uindex i key Hr) as (Hu & Hrange & _).
  destruct (Observe_step i key Hr) as (old & Hold & Heq).
  eexists _, _, _. split; [exact Heq|]. split; [exact Hu|].
  split; [exact Hrange|]. cbn [array sizeMask hash]. unfold Size in *.
  cbn [array]. rewrite length_insert.
  split; [apply list_lookup_insert_eq; lia|].
  split; [intros j Hj; now apply list_lookup_insert_ne|].
  destruct Hr as (k & _ & _ & _ & Hh). auto.
Qed.

Lemma Observe_frame_witness :
  reachable filter16
  /\ exists b i', Observe filter16 (bytes "alpha") = Some (b, i')
                  /\ Size i' = Size filter16.
Proof.
  split; [exact reachable_filter16|].
  destruct (Observe_frame filter16 (bytes "alpha") reachable_filter16)
    as (b & i' & u & H & _ & _ & _ & _ & _ & Hs & _).
  exists b, i'. split; [exact H | exact Hs].
Defined.

(** ** The answers of [Observe] *)

(** The answer is [true] in two cases: the slot pointed to the key, or the
    slot was nil and the key has no bytes. *)
Lemma Observe_answer i key b i' :
  well_formed i ->
  Observe i key = Some (b, i') ->
  b = true <->
  (array i !! Z.to_nat (Spec.index (Size i) key) = Some (Some key)
   \/ (array i !! Z.to_nat (Spec.index (Size i) key) = Some None /\ key = [])).
Proof.
  intros Hwf H. destruct (Observe_step i key Hwf) as (old & Hold & Heq).
  rewrite Heq in H. injection H as <- _. rewrite Hold, bytes_Equal_iff.
  destruct old as [k|]; cbn [default from_option id]; split.
  - intros ->. now left.
  - intros [[= ->] | [[=] _]]. reflexivity.
  - intros <-. now right.
  - intros [[=] | [_ ->]]. reflexivity.
Qed.

Lemma New_slots_empty size i j :
  NewInverseBloomFilter size = inr i ->
  (j < length (array i))%nat -> array i !! j = Some None.
Proof.
  intros H Hj. apply New_inr in H as [_ ->]. cbn [array] in *.
  rewrite length_replicate in Hj. now apply lookup_replicate_2.
Qed.

(** The first call on a fresh filter answers [true] exactly for the key
    without bytes. *)
Lemma first_Observe size i key :
  NewInverseBloomFilter size = inr i ->
  exists i', Observe i key = Some (bytes_Equal [] key, i').
Proof.
  intros H. pose proof (New_well_formed _ _ H) as Hwf.
  destruct (Observe_step i key Hwf) as (old & Hold & Heq).
  rewrite (New_slots_empty size i) in Hold
    by (auto; eapply lookup_lt_Some; eauto).
  injection Hold as <-. eauto.
Qed.

Lemma slots_within_Observe seen i key b i' :
  well_formed i -> slots_within seen i ->
  Observe i key = Some (b, i') -> slots_within (key :: seen) i'.
Proof.
  intros Hwf Hs H. destruct (Observe_step i key Hwf) as (old & Hold & Heq).
  rewrite Heq in H. injection H as _ <-. intros j k. cbn [array].
  destruct (decide (j = Z.to_nat (Spec.index (Size i) key))) as [->|Hne].
  - rewrite list_lookup_insert_eq by (eapply lookup_lt_Some; eauto).
    intros [= ->]. now left.
  - rewrite list_lookup_insert_ne by congruence. intros Hj. right. eauto.
Qed.

Lemma slots_within_answer seen i key b i' :
  well_formed i -> slots_within seen i ->
  Observe i key = Some (b, i') -> b = true -> key = [] \/ In key seen.
Proof.
  intros Hwf Hs H Hb. apply (Observe_answer i key b i' Hwf H) in Hb.
  destruct Hb as [Hb | [_ ->]]; [right; eauto | now left].
Qed.

Lemma ObserveAll_answers seen i keys bs i' n k :
  well_formed i -> slots_within seen i ->
  ObserveAll i keys = Some (bs, i') ->
  keys !! n = Some k -> bs !! n = Some true ->
  k = [] \/ In k seen \/ exists m, (m < n)%nat /\ keys !! m = Some k.
Proof.
  revert seen i bs n. induction keys as [|k0 ks IH]; intros seen i bs n Hwf Hs;
    cbn [ObserveAll]; [intros _ [=]|].
  destruct (Observe i k0) as [[b j]|] eqn:E; [|discriminate].
  destruct (ObserveAll j ks) as [[bs' j']|] eqn:E'; [|discriminate].
  intros [= <- <-]. destruct n as [|n]; cbn [lookup list_lookup].
  - intros [= <-] [= ->].
    destruct (slots_within_answer seen i k0 true j Hwf Hs E eq_refl); auto.
  - intros Hk Hb.
    destruct (IH (k0 :: seen) j bs' n) as [Hnil | [Hin | (m & Hm & Hkm)]]; auto.
    + eapply Observe_well_formed; eauto.
    + eapply slots_within_Observe; eauto.
    + destruct Hin as [<- | Hin]; [|auto].
      right; right. exists 0%nat. split; [lia | reflexivity].
    + right; right. exists (S m). split; [lia | exact Hkm].
Qed.

(** No false positive for a key that has bytes, for keys taken by value:
    in a run of calls on a fresh filter, an answer [true] for such a key
    follows an earlier call with the same key. *)
Lemma no_false_positive size i keys bs i' n k :
  NewInverseBloomFilter size = inr i ->
  ObserveAll i keys = Some (bs, i') ->
  keys !! n = Some k -> bs !! n = Some true -> k <> [] ->
  exists m, (m < n)%nat /\ keys !! m = Some k.
Proof.
  intros Hnew Hall Hk Hb Hne.
  destruct (ObserveAll_answers [] i keys bs i' n k) as [? | [[] | ?]]; auto.
  - eapply New_well_formed; eauto.
  - intros j k' Hj. apply lookup_lt_Some in Hj as Hlt.
    rewrite (New_slots_empty size i j Hnew Hlt) in Hj. discriminate.
  - contradiction.
Qed.

Lemma Observe_effect i key b i' :
  well_formed i ->
  Observe i key = Some (b, i') ->
  well_formed i' /\ Size i' = Size i
  /\ array i' !! Z.to_nat (Spec.index (Size i) key) = Some (Some key)
  /\ exists old, array i !! Z.to_nat (Spec.index (Size i) key) = Some old
                 /\ b = bytes_Equal (default [] old) key.
Proof.
  intros Hwf H. split; [eapply Observe_well_formed; eauto|].
  split; [now apply Observe_Size in H|].
  destruct (Observe_step i key Hwf) as (old & Hold & Heq).
  rewrite Heq in H. injection H as <- <-. cbn [array]. split; [|eauto].
  apply list_lookup_insert_eq. eapply lookup_lt_Some; eauto.
Qed.

(** Recall: on a fresh filter the second of two calls in a row with one
    key answers [true]; the first answers [false] when the key has bytes. *)
Lemma recall size i k :
  NewInverseBloomFilter size = inr i ->
  exists i', ObserveAll i [k; k] = Some ([bytes_Equal [] k; true], i').
Proof.
  intros Hnew. pose proof (New_well_formed _ _ Hnew) as Hwf.
  destruct (first_Observe size i k Hnew) as [i1 H1].
  destruct (Observe_effect i k _ i1 Hwf H1) as (Hwf1 & Hsz & Hslot & _).
  destruct (Observe_step i1 k Hwf1) as (old & Hold & H2).
  rewrite Hsz, Hslot in Hold. injection Hold as <-.
  cbn [default from_option id] in H2. rewrite bytes_Equal_refl in H2.
  cbn [ObserveAll]. rewrite H1, H2. eauto.
Qed.

(** Eviction, for keys taken by value: two different keys of one slot,
    the first observed again after the second.  The second and third
    answers are [false], and after each call the slot holds the key of
    that call. *)
Lemma eviction size i k1 k2 :
  NewInverseBloomFilter size = inr i ->
  k1 <> k2 -> Spec.index (Size i) k1 = Spec.index (Size i) k2 ->
  exists i1 i2 i3,
    Observe i k1 = Some (bytes_Equal [] k1, i1)
    /\ Observe i1 k2 = Some (false, i2)
    /\ Observe i2 k1 = Some (false, i3)
    /\ array i1 !! Z.to_nat (Spec.index (Size i) k1) = Some (Some k1)
    /\ array i2 !! Z.to_nat (Spec.index (Size i) k1) = Some (Some k2)
    /\ array i3 !! Z.to_nat (Spec.index (Size i) k1) = Some (Some k1).
Proof.
  intros Hnew Hne Hidx. pose proof (New_well_formed _ _ Hnew) as Hwf.
  destruct (first_Observe size i k1 Hnew) as [i1 H1].
  destruct (Observe_effect i k1 _ i1 Hwf H1) as (Hwf1 & Hsz1 & Hslot1 & _).
  destruct (Observe_total i1 k2 Hwf1) as (b2 & i2 & H2).
  destruct (Observe_effect i1 k2 _ i2 Hwf1 H2)
    as (Hwf2 & Hsz2 & Hslot2 & old2 & Hold2 & Hb2).
  rewrite Hsz1, <- Hidx in Hslot2, Hold2. rewrite Hslot1 in Hold2.
  injection Hold2 as <-. cbn [default from_option id] in Hb2.
  rewrite (bytes_Equal_neq k1 k2 Hne) in Hb2. subst b2.
  destruct (Observe_total i2 k1 Hwf2) as (b3 & i3 & H3).
  destruct (Observe_effect i2 k1 _ i3 Hwf2 H3)
    as (_ & _ & Hslot3 & old3 & Hold3 & Hb3).
  rewrite Hsz2, Hsz1 in Hslot3, Hold3. rewrite Hslot2 in Hold3.
  injection Hold3 as <-. cbn [default from_option id] in Hb3.
  rewrite (bytes_Equal_neq k2 k1) in Hb3 by congruence. subst b3.
  exists i1, i2, i3. auto 10.
Qed.

Example eviction_beta_gamma :
  Spec.index 16 (bytes "beta") = Spec.index 16 (bytes "gamma")
  /\ option_map fst (ObserveAll filter16 [bytes "beta"; bytes "gamma"; bytes "beta"])
     = Some [false; false; false].
Proof. split; vm_compute; reflexivity. Qed.

(** ** The key without bytes on a nil slot *)

(** C1. The code departs from the claim: the first call on the fresh filter
    of [NewInverseBloomFilter 10] with the empty key answers [true], and so
    does a first call with the empty key after other keys, although the
    empty key was never passed before. *)
Theorem false_positive_empty_key :
  NewInverseBloomFilter 10 = inr filter16
  /\ option_map fst (ObserveAll filter16 [[]]) = Some [true]
  /\ option_map fst (ObserveAll filter16 [bytes "alpha"; []]) = Some [false; true].
Proof. repeat split; vm_compute; reflexivity. Qed.

(** C2. The code departs from the claim: on the fresh filter of
    [NewInverseBloomFilter 1] the slot at the index of the empty key is
    empty (a nil pointer), and [Observe] of the empty key answers [true]. *)
Theorem Observe_nil_slot_empty_key :
  NewInverseBloomFilter 1 = inr filter1
  /\ Observe_uindex filter1 [] = Some 0
  /\ array filter1 !! 0%nat = Some None
  /\ option_map fst (Observe filter1 []) = Some true.
Proof. repeat split; vm_compute; reflexivity. Qed.

(** C6. The code departs from the claim: on the fresh filter of
    [NewInverseBloomFilter 10], two calls in a row with the empty key answer
    [true] then [true], not [false] then [true]. *)
Theorem recall_empty_key :
  NewInverseBloomFilter 10 = inr filter16
  /\ option_map fst (ObserveAll filter16 [[]; []]) = Some [true; true].
Proof. split; vm_compute; reflexivity. Qed.

(** C7. The code departs from the claim: the empty key and the key "b" are
    different keys of slot 13 of the fresh 16-slot filter, and observing the
    empty key, "b", the empty key answers [true], [false], [false], not
    three times [false]. *)
Theorem eviction_empty_key :
  NewInverseBloomFilter 10 = inr filter16
  /\ [] <> bytes "b"
  /\ Observe_uindex filter16 [] = Some 13
  /\ Observe_uindex filter16 (bytes "b") = Some 13
  /\ option_map fst (ObserveAll filter16 [[]; bytes "b"; []])
     = Some [true; false; false].
Proof. repeat split; try discriminate; vm_compute; reflexivity. Qed.

(** * Further properties of the code *)

(** ** [uintHash.Sum32] on its own *)

(** [Sum32] returns for every state of the accumulator, and its value is
    at most [255 * 73 = 18615]: three bytes shifted by three bits overlap. *)
Theorem Sum32_range u : exists x, Sum32 u = Some x /\ 0 <= x <= 18615.
Proof.
  rewrite Sum32_value. eexists; split; [reflexivity|].
  assert (H0 : 0 <= (u / 2 ^ 24) mod 256 < 256) by (apply Z.mod_pos_bound; lia).
  assert (H1 : 0 <= (u / 2 ^ 16) mod 256 < 256) by (apply Z.mod_pos_bound; lia).
  assert (H2 : 0 <= (u / 2 ^ 8) mod 256 < 256) by (apply Z.mod_pos_bound; lia).
  rewrite !Z.shiftl_mul_pow2 by lia. lia.
Qed.

(** The lowest byte of the digest does not reach the result: two states
    that agree above their low eight bits have the same [Sum32]. *)
Theorem Sum32_ignores_low_byte u u' :
  u / 256 = u' / 256 -> Sum32 u = Sum32 u'.
Proof.
  intros H. rewrite !Sum32_value.
  assert (E8 : u / 2 ^ 8 = u' / 2 ^ 8) by exact H.
  assert (E16 : u / 2 ^ 16 = u' / 2 ^ 16).
  { change (2 ^ 16) with (2 ^ 8 * 2 ^ 8).
    rewrite <- !Z.div_div by lia. now rewrite E8. }
  assert (E24 : u / 2 ^ 24 = u' / 2 ^ 24).
  { change (2 ^ 24) with (2 ^ 16 * 2 ^ 8).
    rewrite <- !Z.div_div by lia. now rewrite E16. }
  now rewrite E8, E16, E24.
Qed.

Lemma Sum32_ignores_low_byte_witness :
  0x12345600 / 256 = 0x123456ff / 256 /\ Sum32 0x12345600 = Sum32 0x123456ff.
Proof.
  assert (H : 0x12345600 / 256 = 0x123456ff / 256) by reflexivity.
  split; [exact H | exact (Sum32_ignores_low_byte _ _ H)].
Defined.

(** The fold is not injective on the three bytes it reads: moving one unit
    of the second byte into eight units of the third leaves it unchanged. *)
Theorem Sum32_overlap u :
  (u / 2 ^ 16) mod 256 < 255 -> 8 <= (u / 2 ^ 8) mod 256 ->
  Sum32 (u + 2 ^ 16 - 8 * 2 ^ 8) = Sum32 u.
Proof.
  intros H1 H2. rewrite !Sum32_value.
  set (v := u + 2 ^ 16 - 8 * 2 ^ 8).
  pose proof (Z.div_mod u (2 ^ 8) ltac:(lia)) as D0.
  pose proof (Z.mod_pos_bound u (2 ^ 8) ltac:(lia)) as B0.
  pose proof (Z.div_mod (u / 2 ^ 8) 256 ltac:(lia)) as D1.
  pose proof (Z.div_mod (u / 2 ^ 8 / 256) 256 ltac:(lia)) as D2.
  pose proof (Z.mod_pos_bound (u / 2 ^ 8 / 256) 256 ltac:(lia)) as B2.
  pose proof (Z.mod_pos_bound (u / 2 ^ 8) 256 ltac:(lia)) as B1.
  assert (Eu16 : u / 2 ^ 16 = u / 2 ^ 8 / 256).
  { change (2 ^ 16) with (2 ^ 8 * 256). now rewrite Z.div_div by lia. }
  assert (Eu24 : u / 2 ^ 24 = u / 2 ^ 8 / 256 / 256).
  { change (2 ^ 24) with (2 ^ 8 * 256 * 256). now rewrite !Z.div_div by lia. }
  rewrite Eu16 in H1.
  set (q := u / 2 ^ 8 / 256 / 256) in *.
  set (b1 := (u / 2 ^ 8 / 256) mod 256) in *.
  set (b2 := (u / 2 ^ 8) mod 256) in *.
  assert (Ev8 : v / 2 ^ 8 = 256 * (256 * q + (b1 + 1)) + (b2 - 8)).
  { symmetry. apply (Z.div_unique v (2 ^ 8) _ (u mod 2 ^ 8)); [lia|].
    unfold v. lia. }
  assert (Ev8m : (v / 2 ^ 8) mod 256 = b2 - 8).
  { rewrite Ev8. symmetry.
    apply (Z.mod_unique _ 256 (256 * q + (b1 + 1))); lia. }
  assert (Ev16 : v / 2 ^ 16 = 256 * q + (b1 + 1)).
  { change (2 ^ 16) with (2 ^ 8 * 256). rewrite <- Z.div_div by lia.
    rewrite Ev8. symmetry.
    apply (Z.div_unique _ 256 _ (b2 - 8)); lia. }
  assert (Ev16m : (v / 2 ^ 16) mod 256 = b1 + 1).
  { rewrite Ev16. symmetry. apply (Z.mod_unique _ 256 q); lia. }
  assert (Ev24 : v / 2 ^ 24 = q).
  { change (2 ^ 24) with (2 ^ 16 * 256). rewrite <- Z.div_div by lia.
    rewrite Ev16. symmetry. apply (Z.div_unique _ 256 _ (b1 + 1)); lia. }
  rewrite Ev8m, Ev16m, Ev24, Eu16, Eu24. fold q b1.
  rewrite !Z.shiftl_mul_pow2 by lia. f_equal. lia.
Qed.

Lemma Sum32_overlap_witness :
  (0x12345678 / 2 ^ 16) mod 256 < 255 /\ 8 <= (0x12345678 / 2 ^ 8) mod 256
  /\ Sum32 (0x12345678 + 2 ^ 16 - 8 * 2 ^ 8) = Sum32 0x12345678.
Proof.
  assert (H1 : (0x12345678 / 2 ^ 16) mod 256 < 255) by reflexivity.
  assert (H2 : 8 <= (0x12345678 / 2 ^ 8) mod 256) by discriminate.
  split; [exact H1|]. split; [exact H2|].
  exact (Sum32_overlap _ H1 H2).
Defined.

(** ** [getAndSet] as an exchange *)

(** Two exchanges on one slot: the second returns the key the first one
    stored, and the table ends up as if only the second had been made. *)
Theorem getAndSet_twice arr index k1 k2 old arr1 :
  getAndSet arr index k1 = Some (old, arr1) ->
  getAndSet arr1 index k2 = Some (k1, <[Z.to_nat index := Some k2]> arr)
  /\ length arr1 = length arr.
Proof.
  unfold getAndSet.
  destruct ((index <? 0) || (Z.of_nat (length arr) <=? index)) eqn:E; [discriminate|].
  destruct (arr !! Z.to_nat index) as [p|] eqn:Hp; [|discriminate].
  intros [= _ <-]. rewrite length_insert, E.
  rewrite list_lookup_insert_eq by (eapply lookup_lt_Some; eauto).
  now rewrite list_insert_insert_eq.
Qed.

Lemma getAndSet_twice_witness :
  getAndSet [None; None] 1 (bytes "a") = Some ([], [None; Some (bytes "a")])
  /\ getAndSet [None; Some (bytes "a")] 1 (bytes "b")
     = Some (bytes "a", [None; Some (bytes "b")]).
Proof.
  assert (H : getAndSet [None; None] 1 (bytes "a") = Some ([], [None; Some (bytes "a")]))
    by reflexivity.
  split; [exact H|].
  exact (proj1 (getAndSet_twice [None; None] 1 (bytes "a") (bytes "b") _ _ H)).
Defined.

(** ** Invariants of the filters a program can hold *)

(** The table length never changes after construction: it stays a power
    of two between 1 and [MaxSize], the mask stays one below it, and the
    accumulator is back at the offset basis between calls. *)
Theorem reachable_invariant i :
  reachable i ->
  1 <= Size i <= MaxSize
  /\ (exists k, 0 <= k <= 30 /\ Size i = 2 ^ k)
  /\ sizeMask i = Size i - 1
  /\ hash i = fnv.offset32.
Proof.
  intros Hr. destruct (reachable_well_formed i Hr) as (k & Hk & HN & Hm & Hh).
  assert (0 < 2 ^ k) by (apply Z.pow_pos_nonneg; lia).
  assert (2 ^ k <= 2 ^ 30) by (apply Z.pow_le_mono_r; lia).
  change MaxSize with (2 ^ 30). rewrite HN, Hm.
  repeat split; try lia; eauto.
Qed.

Lemma reachable_invariant_witness :
  reachable filter16 /\ 1 <= Size filter16 <= MaxSize.
Proof.
  split; [exact reachable_filter16|].
  exact (proj1 (reachable_invariant filter16 reachable_filter16)).
Defined.

(** ** Construction *)

(** Asking for the size a filter reports builds the same fresh filter
    again: the rounding is idempotent. *)
Theorem New_Size_again size i :
  NewInverseBloomFilter size = inr i ->
  NewInverseBloomFilter (Size i) = inr i.
Proof.
  intros H. apply New_inr in H as [Hs ->].
  pose proof (round_pow2_spec size ltac:(lia)) as [Hk Hr].
  pose proof (ceil_log2_le_30 size Hs) as Hk30.
  assert (HN : Size (mkFilter (replicate (Z.to_nat (round_pow2 size)) None)
                              (round_pow2 size - 1) fnv.offset32)
               = round_pow2 size).
  { unfold Size. cbn [array]. rewrite length_replicate. lia. }
  rewrite HN.
  assert (Hle : round_pow2 size <= MaxSize).
  { unfold round_pow2. change MaxSize with (2 ^ 30). apply Z.pow_le_mono_r; lia. }
  assert (Hfix : round_pow2 (round_pow2 size) = round_pow2 size).
  { unfold round_pow2 at 1 3, ceil_log2 at 1. unfold round_pow2.
    now rewrite Z.log2_up_pow2. }
  unfold NewInverseBloomFilter.
  destruct (MaxSize <? round_pow2 size) eqn:E1; [lia|].
  destruct (round_pow2 size <=? 0) eqn:E2; [lia|].
  rewrite Hfix, uint32_small; [reflexivity|].
  change MaxSize with (2 ^ 30) in Hle. lia.
Qed.

Lemma New_Size_again_witness :
  NewInverseBloomFilter 10 = inr filter16
  /\ NewInverseBloomFilter (Size filter16) = inr filter16.
Proof.
  split; [exact New_10 | exact (New_Size_again 10 filter16 New_10)].
Defined.

(** A larger request never gives a smaller table. *)
Theorem New_Size_monotone size1 size2 i1 i2 :
  NewInverseBloomFilter size1 = inr i1 ->
  NewInverseBloomFilter size2 = inr i2 ->
  size1 <= size2 -> Size i1 <= Size i2.
Proof.
  intros H1 H2 Hle. apply New_inr in H1 as [Hs1 ->]. apply New_inr in H2 as [Hs2 ->].
  pose proof (round_pow2_spec size1 ltac:(lia)) as [Hk1 Hr1].
  pose proof (round_pow2_spec size2 ltac:(lia)) as [Hk2 Hr2].
  unfold Size. cbn [array]. rewrite !length_replicate, !Z2Nat.id by lia.
  unfold round_pow2, ceil_log2. apply Z.pow_le_mono_r; [lia|].
  now apply Z.log2_up_le_mono.
Qed.

Lemma New_Size_monotone_witness :
  NewInverseBloomFilter 1 = inr filter1
  /\ NewInverseBloomFilter 10 = inr filter16
  /\ 1 <= 10 /\ Size filter1 <= Size filter16.
Proof.
  assert (H : 1 <= 10) by discriminate.
  split; [exact New_1|]. split; [exact New_10|]. split; [exact H|].
  exact (New_Size_monotone 1 10 filter1 filter16 New_1 New_10 H).
Defined.

(** ** Sequences of [Observe] calls *)

Lemma uindex_bounds i key v :
  well_formed i -> Observe_uindex i key = Some v ->
  0 <= v <= 18615 /\ v < Size i /\ v = Spec.index (Size i) key.
Proof.
  intros Hwf Hv. destruct (well_formed_uindex i key Hwf) as (Hu & Hr & _).
  rewrite Hu in Hv. injection Hv as <-.
  destruct Hwf as (k & Hk & HN & _). unfold Spec.index. rewrite HN.
  pose proof (mix_range key).
  destruct (land_mask_range (Spec.mix key) k) as [? ?]; lia.
Qed.

Lemma Observe_uindex_after i key b i' k :
  well_formed i -> Observe i key = Some (b, i') ->
  Observe_uindex i' k = Observe_uindex i k.
Proof.
  intros (c & _ & _ & _ & Hh) H. apply Observe_Size in H as (_ & Hm & Hh').
  unfold Observe_uindex. now rewrite Hm, Hh', Hh.
Qed.

Lemma last_routed_ext i i' u keys s :
  (forall k, Observe_uindex i' k = Observe_uindex i k) ->
  last_routed i' u keys s = last_routed i u keys s.
Proof.
  intros Hext. unfold last_routed. revert s.
  induction keys as [|k ks IH]; intros s; [reflexivity|].
  cbn [fold_left]. now rewrite Hext, IH.
Qed.

(** One call seen from an arbitrary slot [j]. *)
Lemma Observe_slot i key b i' j s0 :
  well_formed i -> Observe i key = Some (b, i') ->
  array i !! j = Some s0 ->
  exists v, Observe_uindex i key = Some v
            /\ array i' !! j = Some (if v =? Z.of_nat j then Some key else s0).
Proof.
  intros Hwf H Hj. destruct (well_formed_uindex i key Hwf) as (Hu & Hr & _).
  destruct (Observe_step i key Hwf) as (old & Hold & Heq).
  rewrite Heq in H. injection H as _ <-. cbn [array].
  exists (Spec.index (Size i) key). split; [exact Hu|].
  destruct (Spec.index (Size i) key =? Z.of_nat j) eqn:E.
  - apply Z.eqb_eq in E. rewrite E, Nat2Z.id.
    apply list_lookup_insert_eq. eapply lookup_lt_Some; eauto.
  - apply Z.eqb_neq in E. rewrite list_lookup_insert_ne by lia. exact Hj.
Qed.

Lemma ObserveAll_slots_wf i keys bs i' j s0 :
  well_formed i -> ObserveAll i keys = Some (bs, i') ->
  array i !! j = Some s0 ->
  array i' !! j = Some (last_routed i (Z.of_nat j) keys s0).
Proof.
  revert i bs s0. induction keys as [|k ks IH]; intros i bs s0 Hwf;
    cbn [ObserveAll].
  - intros [= _ <-] Hj. exact Hj.
  - destruct (Observe i k) as [[b i1]|] eqn:E; [|discriminate].
    destruct (ObserveAll i1 ks) as [[bs' i2]|] eqn:E'; [|discriminate].
    intros [= _ <-] Hj.
    destruct (Observe_slot i k b i1 j s0 Hwf E Hj) as (v & Hv & Hj1).
    rewrite (IH i1 bs' _ (Observe_well_formed _ _ _ _ Hwf E) E' Hj1).
    rewrite (last_routed_ext i i1) by (intros; eapply Observe_uindex_after; eauto).
    unfold last_routed. cbn [fold_left]. now rewrite Hv.
Qed.

Lemma ObserveAll_answer_wf i keys bs i' n k u s0 :
  well_formed i -> ObserveAll i keys = Some (bs, i') ->
  keys !! n = Some k -> Observe_uindex i k = Some u ->
  array i !! Z.to_nat u = Some s0 ->
  bs !! n = Some (bytes_Equal (default [] (last_routed i u (take n keys) s0)) k).
Proof.
  revert i bs n s0. induction keys as [|k0 ks IH]; intros i bs n s0 Hwf;
    cbn [ObserveAll]; [intros _ [=]|].
  destruct (Observe i k0) as [[b i1]|] eqn:E; [|discriminate].
  destruct (ObserveAll i1 ks) as [[bs' i2]|] eqn:E'; [|discriminate].
  intros [= <- <-] Hk Hu Hs.
  destruct (uindex_bounds i k u Hwf Hu) as (Hu0 & _ & Hidx).
  destruct n as [|n].
  - change (Some k0 = Some k) in Hk. change ((b :: bs') !! 0%nat) with (Some b).
    injection Hk as ->. unfold last_routed. cbn [take fold_left].
    destruct (Observe_step i k Hwf) as (old & Hold & Heq).
    rewrite <- Hidx, Hs in Hold. injection Hold as <-.
    rewrite Heq in E. now injection E as <- _.
  - change (ks !! n = Some k) in Hk. change ((b :: bs') !! S n) with (bs' !! n).
    destruct (Observe_slot i k0 b i1 _ s0 Hwf E Hs) as (v & Hv & Hs1).
    rewrite Z2Nat.id in Hs1 by lia.
    rewrite (IH i1 bs' n _ (Observe_well_formed _ _ _ _ Hwf E) E' Hk
               ltac:(erewrite Observe_uindex_after; eauto) Hs1).
    rewrite (last_routed_ext i i1) by (intros; eapply Observe_uindex_after; eauto).
    unfold last_routed. cbn [take fold_left]. now rewrite Hv.
Qed.

Lemma last_routed_Some i u keys k :
  exists k', last_routed i u keys (Some k) = Some k'.
Proof.
  unfold last_routed. revert k. induction keys as [|k0 ks IH]; intros k;
    cbn [fold_left]; [eauto|].
  destruct (Observe_uindex i k0) as [v|]; [|apply IH].
  destruct (v =? u); apply IH.
Qed.

(** Nothing is ever deleted: a slot that holds a key holds a key after
    any run of calls. *)
Theorem slots_stay_occupied i keys bs i' j k :
  reachable i -> ObserveAll i keys = Some (bs, i') ->
  array i !! j = Some (Some k) ->
  exists k', array i' !! j = Some (Some k').
Proof.
  intros Hr Hall Hj.
  destruct (last_routed_Some i (Z.of_nat j) keys k) as [k' Hk'].
  exists k'. rewrite <- Hk'.
  eapply ObserveAll_slots_wf; eauto using reachable_well_formed.
Qed.

(** Observing a key a second time at once answers [true] and leaves the
    filter as the first call left it, whatever the filter held before. *)
Theorem Observe_again i k b i1 :
  reachable i -> Observe i k = Some (b, i1) ->
  Observe i1 k = Some (true, i1).
Proof.
  intros Hr H. pose proof (reachable_well_formed i Hr) as Hwf.
  destruct (Observe_effect i k b i1 Hwf H) as (Hwf1 & Hsz & Hslot & _).
  destruct (Observe_step i k Hwf) as (old & Hold & Heq).
  rewrite Heq in H. injection H as _ Hi1.
  destruct (Observe_step i1 k Hwf1) as (old1 & Hold1 & Heq1).
  rewrite Hsz in Hold1, Heq1. rewrite Hslot in Hold1. injection Hold1 as <-.
  rewrite Heq1. cbn [default from_option id]. rewrite bytes_Equal_refl.
  do 2 f_equal. rewrite <- Hi1. cbn [array sizeMask].
  now rewrite list_insert_insert_eq.
Qed.

Lemma Observe_two i k1 k2 :
  well_formed i ->
  Spec.index (Size i) k1 <> Spec.index (Size i) k2 ->
  exists o1 o2,
    array i !! Z.to_nat (Spec.index (Size i) k1) = Some o1
    /\ array i !! Z.to_nat (Spec.index (Size i) k2) = Some o2
    /\ ObserveAll i [k1; k2]
       = Some ([bytes_Equal (default [] o1) k1; bytes_Equal (default [] o2) k2],
               mkFilter (<[Z.to_nat (Spec.index (Size i) k2) := Some k2]>
                           (<[Z.to_nat (Spec.index (Size i) k1) := Some k1]> (array i)))
                        (sizeMask i) fnv.offset32).
Proof.
  intros Hwf Hne.
  destruct (well_formed_uindex i k1 Hwf) as (_ & Hr1 & _).
  destruct (well_formed_uindex i k2 Hwf) as (_ & Hr2 & _).
  destruct (Observe_step i k1 Hwf) as (o1 & Ho1 & E1).
  destruct (Observe_step i k2 Hwf) as (o2 & Ho2 & _).
  exists o1, o2. split; [exact Ho1|]. split; [exact Ho2|].
  pose proof (Observe_well_formed _ _ _ _ Hwf E1) as Hwf1.
  destruct (Observe_step _ k2 Hwf1) as (o2' & Ho2' & E2).
  assert (Hsz : Size (mkFilter (<[Z.to_nat (Spec.index (Size i) k1) := Some k1]> (array i))
                               (sizeMask i) fnv.offset32) = Size i)
    by (unfold Size; cbn [array]; now rewrite length_insert).
  rewrite Hsz in Ho2', E2. cbn [array sizeMask] in Ho2', E2.
  rewrite list_lookup_insert_ne in Ho2' by lia.
  rewrite Ho2 in Ho2'. injection Ho2' as <-.
  cbn [ObserveAll]. now rewrite E1, E2.
Qed.

(** Calls on keys of different slots commute: in either order they give
    the same two answers and the same filter. *)
Theorem Observe_commute i k1 k2 b1 b2 i' :
  reachable i ->
  Observe_uindex i k1 <> Observe_uindex i k2 ->
  ObserveAll i [k1; k2] = Some ([b1; b2], i') ->
  ObserveAll i [k2; k1] = Some ([b2; b1], i').
Proof.
  intros Hr Hne H. pose proof (reachable_well_formed i Hr) as Hwf.
  destruct (well_formed_uindex i k1 Hwf) as (Hu1 & Hr1 & _).
  destruct (well_formed_uindex i k2 Hwf) as (Hu2 & Hr2 & _).
  rewrite Hu1, Hu2 in Hne.
  assert (Hne' : Spec.index (Size i) k1 <> Spec.index (Size i) k2) by congruence.
  destruct (Observe_two i k1 k2 Hwf Hne') as (o1 & o2 & Ho1 & Ho2 & E12).
  destruct (Observe_two i k2 k1 Hwf ltac:(congruence)) as (p2 & p1 & Hp2 & Hp1 & E21).
  rewrite Ho1 in Hp1. injection Hp1 as <-. rewrite Ho2 in Hp2. injection Hp2 as <-.
  rewrite E12 in H. injection H as <- <- <-. rewrite E21. do 3 f_equal.
  apply list_insert_insert_ne. lia.
Qed.

Lemma Observe_commute_witness :
  reachable filter16
  /\ Observe_uindex filter16 (bytes "alpha") <> Observe_uindex filter16 (bytes "beta")
  /\ ObserveAll filter16 [bytes "alpha"; bytes "beta"]
     = Some ([false; false],
             mkFilter (<[12%nat := Some (bytes "beta")]>
                         (<[5%nat := Some (bytes "alpha")]> (replicate 16 None)))
                      15 fnv.offset32)
  /\ ObserveAll filter16 [bytes "beta"; bytes "alpha"]
     = Some ([false; false],
             mkFilter (<[12%nat := Some (bytes "beta")]>
                         (<[5%nat := Some (bytes "alpha")]> (replicate 16 None)))
                      15 fnv.offset32).
Proof.
  assert (Hne : Observe_uindex filter16 (bytes "alpha")
                <> Observe_uindex filter16 (bytes "beta"))
    by (vm_compute; discriminate).
  assert (E : ObserveAll filter16 [bytes "alpha"; bytes "beta"]
              = Some ([false; false],
                      mkFilter (<[12%nat := Some (bytes "beta")]>
                                  (<[5%nat := Some (bytes "alpha")]> (replicate 16 None)))
                               15 fnv.offset32))
    by (vm_compute; reflexivity).
  split; [exact reachable_filter16|]. split; [exact Hne|]. split; [exact E|].
  exact (Observe_commute filter16 _ _ false false _ reachable_filter16 Hne E).
Defined.

Lemma Observe_filter16_alpha :
  Observe filter16 (bytes "alpha") = Some (false, filter16_alpha).
Proof. vm_compute. reflexivity. Defined.

Lemma reachable_filter16_alpha : reachable filter16_alpha.
Proof.
  exact (reachable_observe filter16 (bytes "alpha") false filter16_alpha
           reachable_filter16 Observe_filter16_alpha).
Defined.

Lemma slots_stay_occupied_witness :
  reachable filter16_alpha
  /\ ObserveAll filter16_alpha [bytes "beta"; bytes "gamma"]
     = Some ([false; false],
             mkFilter (<[12%nat := Some (bytes "gamma")]> (array filter16_alpha))
                      15 fnv.offset32)
  /\ array filter16_alpha !! 5%nat = Some (Some (bytes "alpha"))
  /\ exists k', <[12%nat := Some (bytes "gamma")]> (array filter16_alpha) !! 5%nat
                = Some (Some k').
Proof.
  assert (H : ObserveAll filter16_alpha [bytes "beta"; bytes "gamma"]
              = Some ([false; false],
                      mkFilter (<[12%nat := Some (bytes "gamma")]> (array filter16_alpha))
                               15 fnv.offset32))
    by (vm_compute; reflexivity).
  assert (Hj : array filter16_alpha !! 5%nat = Some (Some (bytes "alpha")))
    by reflexivity.
  split; [exact reachable_filter16_alpha|]. split; [exact H|]. split; [exact Hj|].
  exact (slots_stay_occupied filter16_alpha _ _ _ 5%nat _
           reachable_filter16_alpha H Hj).
Defined.

Lemma Observe_again_witness :
  reachable filter16
  /\ Observe filter16 (bytes "alpha") = Some (false, filter16_alpha)
  /\ Observe filter16_alpha (bytes "alpha") = Some (true, filter16_alpha).
Proof.
  split; [exact reachable_filter16|]. split; [exact Observe_filter16_alpha|].
  exact (Observe_again filter16 (bytes "alpha") false filter16_alpha
           reachable_filter16 Observe_filter16_alpha).
Defined.

(** ** Tables larger than the range of the index *)

(** The index is at most 18615, so the slots above it are never written:
    they are empty in every filter a program can hold. *)
Theorem high_slots_stay_empty i j :
  reachable i -> 18615 < Z.of_nat j < Size i -> array i !! j = Some None.
Proof.
  induction 1 as [size i H | i key b i' Hr IH H]; intros Hj.
  - apply (New_slots_empty size i j H). unfold Size in Hj. lia.
  - pose proof (reachable_well_formed i Hr) as Hwf.
    destruct (Observe_Size _ _ _ _ H) as (Hsz & _).
    rewrite Hsz in Hj.
    destruct (Observe_slot i key b i' j None Hwf H (IH Hj)) as (v & Hv & Hs).
    destruct (uindex_bounds i key v Hwf Hv) as (Hv0 & _).
    rewrite Hs. destruct (v =? Z.of_nat j) eqn:E; [|reflexivity].
    apply Z.eqb_eq in E. lia.
Qed.

Lemma New_20000 : NewInverseBloomFilter 20000 = inr filter32768.
Proof.
  destruct (proj2 (New_inr_iff 20000)) as [i Hi]; [split; [reflexivity | discriminate]|].
  rewrite Hi. f_equal. apply New_inr in Hi as [_ ->].
  assert (E : round_pow2 20000 = 32768) by (vm_compute; reflexivity).
  rewrite E. reflexivity.
Qed.

Lemma Size_filter32768 : Size filter32768 = 32768.
Proof.
  unfold Size, filter32768. cbn [array]. rewrite length_replicate. lia.
Qed.

Lemma reachable_filter32768 : reachable filter32768.
Proof. exact (reachable_new 20000 filter32768 New_20000). Qed.

Lemma high_slots_stay_empty_witness :
  reachable filter32768
  /\ 18615 < Z.of_nat (Z.to_nat 20000) < Size filter32768
  /\ array filter32768 !! Z.to_nat 20000 = Some None.
Proof.
  assert (Hj : 18615 < Z.of_nat (Z.to_nat 20000) < Size filter32768)
    by (rewrite Size_filter32768; lia).
  split; [exact reachable_filter32768|]. split; [exact Hj|].
  exact (high_slots_stay_empty filter32768 _ reachable_filter32768 Hj).
Defined.

(** From 32768 slots on, the mask removes nothing: the index is the folded
    digest itself, the same for every larger table. *)
Theorem large_table_index i key :
  reachable i -> 2 ^ 15 <= Size i ->
  Observe_uindex i key = Sum32 (fnv.Write fnv.offset32 key).
Proof.
  intros Hr Hbig. pose proof (reachable_well_formed i Hr) as Hwf.
  destruct (well_formed_uindex i key Hwf) as (Hu & _).
  rewrite Hu, Sum32_Write_mix. f_equal.
  destruct Hwf as (k & Hk & HN & _). unfold Spec.index. rewrite HN in *.
  replace (2 ^ k - 1) with (Z.ones k) by (rewrite Z.ones_equiv; lia).
  rewrite Z.land_ones by lia. apply Z.mod_small.
  pose proof (mix_range key). lia.
Qed.

Lemma large_table_index_witness :
  reachable filter32768 /\ 2 ^ 15 <= Size filter32768
  /\ Observe_uindex filter32768 (bytes "alpha")
     = Sum32 (fnv.Write fnv.offset32 (bytes "alpha")).
Proof.
  assert (H : 2 ^ 15 <= Size filter32768) by (rewrite Size_filter32768; lia).
  split; [exact reachable_filter32768|]. split; [exact H|].
  exact (large_table_index filter32768 (bytes "alpha") reachable_filter32768 H).
Defined.

(** * Concurrent calls *)

(** ** The bound on the steps *)

Lemma total_insert f l t x y :
  l !! t = Some x ->
  (Concurrent.total f (<[t := y]> l) + f x = Concurrent.total f l + f y)%nat.
Proof.
  revert t. induction l as [|c l IH]; intros [|t] H; try discriminate.
  - injection H as ->. cbn. clear IH. lia.
  - cbn. specialize (IH t H). rewrite <- !Nat.add_assoc. f_equal. exact IH.
Qed.

Lemma total_le f g l :
  (forall c, (f c <= g c)%nat) ->
  (Concurrent.total f l <= Concurrent.total g l)%nat.
Proof.
  intros H. induction l as [|c l IH]; cbn [Concurrent.total]; [lia|]. specialize (H c). lia.
Qed.

Lemma total_plus f g l :
  Concurrent.total (fun c => (f c + 2 * g c)%nat) l
  = (Concurrent.total f l + 2 * Concurrent.total g l)%nat.
Proof. induction l as [|c l IH]; cbn [Concurrent.total]; lia. Qed.

Lemma weight_change arr arr' c :
  (Concurrent.weight arr' c <= Concurrent.weight arr c + 2 * Concurrent.active c)%nat.
Proof.
  destruct c as [key p]. unfold Concurrent.weight, Concurrent.active. cbn [snd].
  destruct p; try lia. repeat case_decide; lia.
Qed.

Lemma measure_goto s t c c' h :
  Concurrent.calls s !! t = Some c ->
  (Concurrent.active c' <= Concurrent.active c)%nat ->
  (Concurrent.weight (Concurrent.array s) c'
   < Concurrent.weight (Concurrent.array s) c)%nat ->
  (Concurrent.measure
     (Concurrent.mkState h (Concurrent.array s)
        (<[t := c']> (Concurrent.calls s)) (Concurrent.trace s))
   < Concurrent.measure s)%nat.
Proof.
  intros Ht Ha Hw. unfold Concurrent.measure. cbn.
  pose proof (total_insert Concurrent.active _ t c c' Ht).
  pose proof (total_insert (Concurrent.weight (Concurrent.array s)) _ t c c' Ht).
  nia.
Qed.

(** A call that has not returned moves when picked, and its step lowers
    the measure: a failed compare-and-swap costs the loser one unit, a
    successful one pays for the retries it causes. *)
Lemma step_measure mask t s c :
  Concurrent.calls s !! t = Some c -> Concurrent.active c = 1%nat ->
  (Concurrent.measure (Concurrent.step mask t s) < Concurrent.measure s)%nat.
Proof.
  intros Ht Ha. destruct c as [key p]. unfold Concurrent.step. rewrite Ht.
  destruct p; try discriminate.
  - apply (measure_goto s t _ _ _ Ht); cbn; lia.
  - apply (measure_goto s t _ _ _ Ht); cbn; lia.
  - destruct (Sum32 (Concurrent.hash s));
      apply (measure_goto s t _ _ _ Ht); cbn; lia.
  - apply (measure_goto s t _ _ _ Ht);
      destruct ((int32 uindex <? 0)
                || (Z.of_nat (length (Concurrent.array s)) <=? int32 uindex));
      cbn; lia.
  - destruct (Concurrent.array s !! Z.to_nat index) as [old|] eqn:E;
      apply (measure_goto s t _ _ _ Ht); cbn; try lia.
    unfold Concurrent.weight. cbn [snd]. rewrite decide_True by exact E. lia.
  - case_decide as E.
    + unfold Concurrent.measure. cbn [Concurrent.calls Concurrent.array].
      set (arr' := <[Z.to_nat index := Some (Concurrent.Arg t)]> (Concurrent.array s)).
      set (c' := (key, Concurrent.Returned index oldKeyUnsafe)).
      pose proof (total_insert Concurrent.active _ t _ c' Ht) as Hact.
      pose proof (total_insert (Concurrent.weight (Concurrent.array s)) _ t _ c' Ht) as Hw.
      assert (Hle : (Concurrent.total (Concurrent.weight arr')
                       (<[t := c']> (Concurrent.calls s))
                     <= Concurrent.total (Concurrent.weight (Concurrent.array s))
                          (<[t := c']> (Concurrent.calls s))
                        + 2 * Concurrent.total Concurrent.active
                                (<[t := c']> (Concurrent.calls s)))%nat).
      { rewrite <- total_plus. apply total_le. intros c. apply weight_change. }
      assert (Hw1 : Concurrent.weight (Concurrent.array s)
                      (key, Concurrent.CAS index oldKeyUnsafe) = 1%nat).
      { unfold Concurrent.weight. cbn [snd]. now rewrite decide_True by exact E. }
      rewrite Hw1 in Hw. cbn in Hact, Hw. nia.
    + apply (measure_goto s t _ _ _ Ht); [cbn; lia|].
      unfold Concurrent.weight. cbn [snd]. rewrite decide_False by exact E. lia.
Qed.

Lemma step_idle mask t s :
  match Concurrent.calls s !! t with
  | Some c => Concurrent.active c = 0%nat
  | None => True
  end ->
  Concurrent.step mask t s = s.
Proof.
  unfold Concurrent.step. destruct (Concurrent.calls s !! t) as [[key p]|]; [|reflexivity].
  destruct p; cbn; intros H; try discriminate; reflexivity.
Qed.

Lemma work_measure mask sched s :
  (Concurrent.work mask sched s
   + Concurrent.measure (Concurrent.exec mask sched s)
   <= Concurrent.measure s)%nat.
Proof.
  revert s. induction sched as [|t r IH]; intros s; cbn; [lia|].
  specialize (IH (Concurrent.step mask t s)).
  unfold Concurrent.exec in IH.
  destruct (Concurrent.calls s !! t) as [c|] eqn:Ht.
  - destruct (Concurrent.active c) as [|[|n]] eqn:Ha.
    + rewrite (step_idle mask t s) in * by now rewrite Ht. lia.
    + pose proof (step_measure mask t s c Ht Ha). lia.
    + destruct c as [key p]. destruct p; discriminate.
  - rewrite (step_idle mask t s) in * by now rewrite Ht. lia.
Qed.

Lemma measure_start h slots keys :
  Concurrent.measure (Concurrent.start h slots keys)
  = (length keys * length keys + 6 * length keys)%nat.
Proof.
  unfold Concurrent.measure, Concurrent.start. cbn.
  assert (Ha : Concurrent.total Concurrent.active
                 ((fun k => (k, Concurrent.Write_load)) <$> keys) = length keys).
  { induction keys as [|k ks IH]; cbn; [reflexivity|]. now rewrite IH. }
  assert (Hw : forall arr, Concurrent.total (Concurrent.weight arr)
                 ((fun k => (k, Concurrent.Write_load)) <$> keys)
               = (6 * length keys)%nat).
  { intros arr. clear Ha. induction keys as [|k ks IH]; cbn; [reflexivity|].
    rewrite IH. lia. }
  now rewrite Ha, Hw.
Qed.

(** ** What every schedule keeps *)

Lemma Sum32_bounded u : exists x, Sum32 u = Some x /\ 0 <= x <= 18615.
Proof.
  rewrite Sum32_value. eexists; split; [reflexivity|].
  assert (H0 : 0 <= (u / 2 ^ 24) mod 256 < 256) by (apply Z.mod_pos_bound; lia).
  assert (H1 : 0 <= (u / 2 ^ 16) mod 256 < 256) by (apply Z.mod_pos_bound; lia).
  assert (H2 : 0 <= (u / 2 ^ 8) mod 256 < 256) by (apply Z.mod_pos_bound; lia).
  rewrite !Z.shiftl_mul_pow2 by lia. lia.
Qed.

Lemma inv_start h slots keys :
  Concurrent.inv (Concurrent.prior_pointers slots) keys
                 (Concurrent.start h slots keys).
Proof.
  unfold Concurrent.inv, Concurrent.start. cbn.
  split; [reflexivity|]. split.
  { rewrite <- list_fmap_compose. clear. induction keys as [|k ks IH]; cbn; congruence. }
  split.
  { intros t key p Ht. apply list_lookup_fmap_Some in Ht as (k & [= _ ->] & _).
    exact I. }
  split; [intros j p0 Hj; split; [exact Hj | exact I]|].
  split; [|constructor].
  intros t index old. split; [|intros []].
  intros [key Ht]. apply list_lookup_fmap_Some in Ht as (k & [=] & _).
Qed.

(** A step that moves one call, neither from nor to [Returned], and
    leaves slots and trace alone. *)
Lemma inv_goto init keys s t key p p' h :
  Concurrent.inv init keys s ->
  Concurrent.calls s !! t = Some (key, p) ->
  (forall i o, p <> Concurrent.Returned i o) ->
  (forall i o, p' <> Concurrent.Returned i o) ->
  Concurrent.pc_ok (length init) p' ->
  Concurrent.inv init keys
    (Concurrent.mkState h (Concurrent.array s)
       (<[t := (key, p')]> (Concurrent.calls s)) (Concurrent.trace s)).
Proof.
  intros (Hlen & Hkeys & Hok & Hchain & Hret & Hnd) Ht Hp Hp' Hok'.
  unfold Concurrent.inv. cbn.
  split; [exact Hlen|]. split.
  { rewrite list_fmap_insert. cbn. rewrite list_insert_id; [exact Hkeys|].
    now rewrite list_lookup_fmap, Ht. }
  split.
  { intros t' key' q Hq. apply list_lookup_insert_Some in Hq
      as [(_ & [= _ <-] & _) | (_ & Hq)]; [exact Hok' | eauto]. }
  split; [exact Hchain|]. split; [|exact Hnd].
  intros t' index old. rewrite <- Hret.
  destruct (decide (t' = t)) as [->|Hne].
  - split; intros [key' Hq].
    + rewrite list_lookup_insert_eq in Hq by (eapply lookup_lt_Some; eauto).
      injection Hq as _ Hq. now apply Hp' in Hq.
    + rewrite Ht in Hq. injection Hq as _ Hq. now apply Hp in Hq.
  - now rewrite list_lookup_insert_ne by congruence.
Qed.

(** The successful compare-and-swap. *)
Lemma inv_swap init keys s t key index old :
  Concurrent.inv init keys s ->
  Concurrent.calls s !! t = Some (key, Concurrent.CAS index old) ->
  Concurrent.array s !! Z.to_nat index = Some old ->
  Concurrent.inv init keys
    (Concurrent.mkState (Concurrent.hash s)
       (<[Z.to_nat index := Some (Concurrent.Arg t)]> (Concurrent.array s))
       (<[t := (key, Concurrent.Returned index old)]> (Concurrent.calls s))
       ((t, index, old) :: Concurrent.trace s)).
Proof.
  intros (Hlen & Hkeys & Hok & Hchain & Hret & Hnd) Ht Hslot.
  pose proof (Hok _ _ _ Ht) as Hidx. cbn in Hidx.
  assert (Hfresh : forall i o, ~ In (t, i, o) (Concurrent.trace s)).
  { intros i o Hin. apply Hret in Hin as [key' Hq]. rewrite Ht in Hq. discriminate. }
  unfold Concurrent.inv. cbn [Concurrent.array Concurrent.calls Concurrent.trace].
  split; [now rewrite length_insert|]. split.
  { rewrite list_fmap_insert. cbn. rewrite list_insert_id; [exact Hkeys|].
    now rewrite list_lookup_fmap, Ht. }
  split.
  { intros t' key' q Hq. apply list_lookup_insert_Some in Hq
      as [(_ & [= _ <-] & _) | (_ & Hq)]; [exact Hidx | eauto]. }
  split.
  { intros j p0 Hj. destruct (Hchain j p0 Hj) as [Hcur Hch].
    cbn [Concurrent.slot_trace]. destruct (index =? Z.of_nat j) eqn:E.
    - apply Z.eqb_eq in E. subst index. rewrite Nat2Z.id in *.
      cbn [Concurrent.head_ptr Concurrent.chained]. split.
      + apply list_lookup_insert_eq. eapply lookup_lt_Some; eauto.
      + split; [congruence | exact Hch].
    - apply Z.eqb_neq in E. rewrite list_lookup_insert_ne by lia. now split. }
  split.
  { intros t' i o. cbn [In]. destruct (decide (t' = t)) as [->|Hne].
    - rewrite list_lookup_insert_eq by (eapply lookup_lt_Some; eauto). split.
      + intros [key' [= _ <- <-]]. now left.
      + intros [[= <- <-] | Hin]; [eauto | now apply Hfresh in Hin].
    - rewrite list_lookup_insert_ne by congruence. rewrite Hret. split.
      + now right.
      + intros [[= ? _ _] | Hin]; [congruence | exact Hin]. }
  cbn. apply NoDup_cons. split; [|exact Hnd].
  intros Hin. apply list_elem_of_fmap in Hin as ([[t' i] o] & Heq & Hin).
  cbn in Heq. subst t'. apply list_elem_of_In in Hin. now apply Hfresh in Hin.
Qed.

Lemma inv_step init keys mask k t s :
  0 <= k -> Z.of_nat (length init) = 2 ^ k -> mask = 2 ^ k - 1 ->
  Concurrent.inv init keys s ->
  Concurrent.inv init keys (Concurrent.step mask t s).
Proof.
  intros Hk HL Hmask Hinv. unfold Concurrent.step.
  destruct (Concurrent.calls s !! t) as [[key p]|] eqn:Ht; [|exact Hinv].
  pose proof Hinv as (Hlen & _ & Hok & _).
  pose proof (Hok _ _ _ Ht) as Hp.
  destruct p; cbn in Hp; try exact Hinv.
  - apply (inv_goto init keys s t key _ _ _ Hinv Ht); [easy | easy | exact I].
  - apply (inv_goto init keys s t key _ _ _ Hinv Ht); [easy | easy | exact I].
  - destruct (Sum32_bounded (Concurrent.hash s)) as (x & -> & Hx).
    apply (inv_goto init keys s t key _ _ _ Hinv Ht); [easy | easy |].
    cbn. subst mask. rewrite HL.
    destruct (land_mask_range x k) as [? ?]; lia.
  - rewrite int32_small by lia. rewrite Hlen.
    destruct (uindex <? 0) eqn:E1; [lia|].
    destruct (Z.of_nat (length init) <=? uindex) eqn:E2; [lia|].
    apply (inv_goto init keys s t key _ _ _ Hinv Ht); [easy | easy |].
    cbn. lia.
  - destruct (lookup_lt_is_Some_2 (Concurrent.array s) (Z.to_nat index))
      as [old Hold]; [lia|].
    rewrite Hold.
    apply (inv_goto init keys s t key _ _ _ Hinv Ht); [easy | easy | exact Hp].
  - case_decide as E.
    + now apply inv_swap.
    + apply (inv_goto init keys s t key _ _ _ Hinv Ht); [easy | easy | exact Hp].
Qed.

Lemma inv_exec init keys mask k sched s :
  0 <= k -> Z.of_nat (length init) = 2 ^ k -> mask = 2 ^ k - 1 ->
  Concurrent.inv init keys s ->
  Concurrent.inv init keys (Concurrent.exec mask sched s).
Proof.
  intros Hk HL Hmask. revert s.
  induction sched as [|t r IH]; intros s Hinv; [exact Hinv|].
  apply IH. eapply inv_step; eauto.
Qed.

(** In a chained trace the pointer of every swap is still in the slot or
    was taken out by a later swap. *)
Lemma chained_kept p0 tr t old :
  Concurrent.chained p0 tr -> In (t, old) tr ->
  Concurrent.head_ptr p0 tr = Some (Concurrent.Arg t)
  \/ exists t', In (t', Some (Concurrent.Arg t)) tr.
Proof.
  induction tr as [|[t1 old1] r IH]; cbn; [intros _ []|].
  intros [Hold Hch] [[= -> ->] | Hin]; [now left|].
  right. destruct (IH Hch Hin) as [Hhead | [t' Ht']].
  - exists t1. left. congruence.
  - exists t'. now right.
Qed.

Lemma In_slot_trace t index old tr :
  In (t, index, old) tr <-> In (t, old) (Concurrent.slot_trace index tr).
Proof.
  induction tr as [|[[t1 i1] o1] r IH]; cbn; [tauto|].
  destruct (i1 =? index) eqn:E.
  - apply Z.eqb_eq in E. subst i1. cbn. rewrite <- IH. split.
    + intros [[= -> ->] | H]; auto.
    + intros [[= -> ->] | H]; auto.
  - apply Z.eqb_neq in E. rewrite <- IH. split; [|auto].
    intros [[= _ ? _] | H]; [congruence | exact H].
Qed.

Lemma In_slot_trace_inv t index old tr :
  In (t, old) (Concurrent.slot_trace index tr) -> In (t, index, old) tr.
Proof. apply In_slot_trace. Qed.

(** ** Calls that have returned stay returned *)

Lemma step_others mask t' t s :
  t <> t' ->
  Concurrent.calls (Concurrent.step mask t' s) !! t = Concurrent.calls s !! t.
Proof.
  intros Hne. unfold Concurrent.step, Concurrent.goto.
  destruct (Concurrent.calls s !! t') as [[key p]|]; [|reflexivity].
  destruct p; cbn [Concurrent.calls]; try reflexivity;
    try (now rewrite list_lookup_insert_ne by congruence).
  - destruct (Sum32 (Concurrent.hash s)); cbn [Concurrent.calls];
      now rewrite list_lookup_insert_ne by congruence.
  - destruct (Concurrent.array s !! Z.to_nat index); cbn [Concurrent.calls];
      now rewrite list_lookup_insert_ne by congruence.
  - case_decide; cbn [Concurrent.calls];
      now rewrite list_lookup_insert_ne by congruence.
Qed.

Lemma idle_step mask t' t s c :
  Concurrent.calls s !! t = Some c -> Concurrent.active c = 0%nat ->
  Concurrent.calls (Concurrent.step mask t' s) !! t = Some c.
Proof.
  intros Ht Ha. destruct (decide (t = t')) as [<-|Hne].
  - rewrite step_idle; [exact Ht | now rewrite Ht].
  - now rewrite step_others.
Qed.

Lemma idle_exec mask sched t s c :
  Concurrent.calls s !! t = Some c -> Concurrent.active c = 0%nat ->
  Concurrent.calls (Concurrent.exec mask sched s) !! t = Some c.
Proof.
  revert s. induction sched as [|t' r IH]; intros s Ht Ha; [exact Ht|].
  apply IH; [|exact Ha]. now apply idle_step.
Qed.

Lemma step_length mask t s :
  length (Concurrent.calls (Concurrent.step mask t s)) = length (Concurrent.calls s).
Proof.
  unfold Concurrent.step, Concurrent.goto.
  destruct (Concurrent.calls s !! t) as [[key p]|]; [|reflexivity].
  destruct p; cbn [Concurrent.calls]; rewrite ?length_insert; try reflexivity.
  - destruct (Sum32 (Concurrent.hash s)); cbn [Concurrent.calls];
      now rewrite length_insert.
  - destruct (Concurrent.array s !! Z.to_nat index); cbn [Concurrent.calls];
      now rewrite length_insert.
  - case_decide; cbn [Concurrent.calls]; now rewrite length_insert.
Qed.

Lemma exec_length mask sched s :
  length (Concurrent.calls (Concurrent.exec mask sched s))
  = length (Concurrent.calls s).
Proof.
  revert s. induction sched as [|t r IH]; intros s; [reflexivity|].
  change (Concurrent.exec mask (t :: r) s)
    with (Concurrent.exec mask r (Concurrent.step mask t s)).
  now rewrite IH, step_length.
Qed.

(** A call that has not returned at the end was moved by each of its
    picks. *)
Lemma work_counts mask sched s t c :
  Concurrent.calls (Concurrent.exec mask sched s) !! t = Some c ->
  Concurrent.active c = 1%nat ->
  (count_occ Nat.eq_dec sched t <= Concurrent.work mask sched s)%nat.
Proof.
  revert s. induction sched as [|t' r IH]; intros s Hend Ha; [cbn; lia|].
  cbn [count_occ Concurrent.work].
  change (Concurrent.exec mask (t' :: r) s)
    with (Concurrent.exec mask r (Concurrent.step mask t' s)) in Hend.
  specialize (IH _ Hend Ha).
  destruct (Nat.eq_dec t' t) as [->|Hne]; [|lia].
  destruct (Concurrent.calls s !! t) as [c0|] eqn:Ht.
  - destruct (Concurrent.active c0) as [|[|n]] eqn:Ha0; [|lia|].
    + pose proof (idle_exec mask (t :: r) t s c0 Ht Ha0) as Hidle.
      change (Concurrent.exec mask (t :: r) s)
        with (Concurrent.exec mask r (Concurrent.step mask t s)) in Hidle.
      rewrite Hidle in Hend. injection Hend as <-. lia.
    + destruct c0 as [key p]. destruct p; discriminate.
  - apply lookup_lt_Some in Hend.
    rewrite exec_length, step_length in Hend.
    apply lookup_ge_None in Ht. lia.
Qed.

(** ** Concurrent [Observe] calls on one filter *)

(** C9. Goroutines that call [Observe] on one filter a program can hold,
    under every schedule of their atomic steps.  No call panics.  On every
    slot the successful compare-and-swaps form one chain: each took out
    exactly the pointer its predecessor had put in (the first one what the
    slot held at the start), and the slot holds the pointer of the last;
    so every exchange is indivisible with respect to the others and the
    exchanges of a slot are totally ordered.  A call has returned exactly
    when its swap is in the chain, once; the pointer it stored is still in
    its slot or was handed to the call that replaced it, so no update is
    lost, and what a call takes out is a whole pointer, nil, the slot's
    former one or another call's [&key].  The calls take at most
    [n * n + 6 * n] steps together; a call that is picked has either
    returned, with a boolean answer, or takes a step towards it; and a
    call that the schedule picks more often than that has returned. *)
Theorem concurrent_Observe i keys sched :
  reachable i ->
  let s0 := Concurrent.start (hash i) (array i) keys in
  let s := Concurrent.exec (sizeMask i) sched s0 in
  (fst <$> Concurrent.calls s = keys
   /\ forall t key p, Concurrent.calls s !! t = Some (key, p) ->
                      p <> Concurrent.Panicked)
  /\ (forall j p0,
        Concurrent.array s0 !! j = Some p0 ->
        Concurrent.array s !! j
        = Some (Concurrent.head_ptr p0
                  (Concurrent.slot_trace (Z.of_nat j) (Concurrent.trace s)))
        /\ Concurrent.chained p0
             (Concurrent.slot_trace (Z.of_nat j) (Concurrent.trace s)))
  /\ (forall t index old,
        (exists key, Concurrent.calls s !! t
                     = Some (key, Concurrent.Returned index old))
        <-> In (t, index, old) (Concurrent.trace s))
  /\ NoDup ((fun e => fst (fst e)) <$> Concurrent.trace s)
  /\ (forall t key index old,
        Concurrent.calls s !! t = Some (key, Concurrent.Returned index old) ->
        0 <= index < Size i
        /\ (Concurrent.array s !! Z.to_nat index = Some (Some (Concurrent.Arg t))
            \/ exists t' key',
                 Concurrent.calls s !! t'
                 = Some (key', Concurrent.Returned index (Some (Concurrent.Arg t)))))
  /\ (Concurrent.work (sizeMask i) sched s0 + Concurrent.measure s
      <= length keys * length keys + 6 * length keys)%nat
  /\ (forall t, (t < length keys)%nat ->
        (exists b, Concurrent.answer (array i) s t = Some b)
        \/ (Concurrent.measure (Concurrent.step (sizeMask i) t s)
            < Concurrent.measure s)%nat)
  /\ (forall t, (t < length keys)%nat ->
        (length keys * length keys + 6 * length keys
         < count_occ Nat.eq_dec sched t)%nat ->
        exists b, Concurrent.answer (array i) s t = Some b).
Proof.
  intros Hr s0 s.
  destruct (reachable_well_formed i Hr) as (k & Hk & HN & Hmask & _).
  assert (HL : Z.of_nat (length (Concurrent.prior_pointers (array i))) = 2 ^ k).
  { unfold Concurrent.prior_pointers. rewrite length_imap. exact HN. }
  assert (Hinv : Concurrent.inv (Concurrent.prior_pointers (array i)) keys s).
  { apply (inv_exec _ _ _ k); [lia | exact HL | exact Hmask | apply inv_start]. }
  destruct Hinv as (Hlen & Hkeys & Hok & Hchain & Hret & Hnd).
  split.
  { split; [exact Hkeys|]. intros t key p Ht ->. exact (Hok _ _ _ Ht). }
  split; [exact Hchain|]. split; [exact Hret|]. split; [exact Hnd|]. split.
  { intros t key index old Ht. pose proof (Hok _ _ _ Ht) as Hidx. cbn in Hidx.
    split; [rewrite HN, <- HL; exact Hidx|].
    destruct (lookup_lt_is_Some_2 (Concurrent.prior_pointers (array i))
                (Z.to_nat index)) as [p0 Hp0]; [lia|].
    destruct (Hchain _ _ Hp0) as [Hcur Hch].
    rewrite Z2Nat.id in Hcur, Hch by lia.
    assert (Hin : In (t, old) (Concurrent.slot_trace index (Concurrent.trace s))).
    { apply In_slot_trace, Hret. eauto. }
    destruct (chained_kept _ _ _ _ Hch Hin) as [Hhead | [t' Ht']].
    - left. now rewrite Hcur, Hhead.
    - right. apply In_slot_trace_inv, Hret in Ht' as [key' Hq]. eauto. }
  assert (Hbound : (Concurrent.work (sizeMask i) sched s0 + Concurrent.measure s
                    <= length keys * length keys + 6 * length keys)%nat).
  { pose proof (work_measure (sizeMask i) sched s0) as Hw.
    unfold s0 in Hw at 3. rewrite measure_start in Hw. exact Hw. }
  assert (Hcases : forall t, (t < length keys)%nat ->
            exists key p, Concurrent.calls s !! t = Some (key, p)
              /\ ((Concurrent.active (key, p) = 0%nat
                   /\ exists b, Concurrent.answer (array i) s t = Some b)
                  \/ Concurrent.active (key, p) = 1%nat)).
  { intros t Ht.
    assert (Hlt : (t < length (Concurrent.calls s))%nat).
    { rewrite <- (length_fmap fst), Hkeys. exact Ht. }
    destruct (lookup_lt_is_Some_2 _ _ Hlt) as [[key p] Hq].
    exists key, p. split; [exact Hq|].
    destruct (Concurrent.active (key, p)) as [|[|n]] eqn:Ha.
    - left. split; [reflexivity|]. unfold Concurrent.answer. rewrite Hq.
      destruct p; try discriminate; [eauto|].
      destruct (Hok _ _ _ Hq).
    - now right.
    - destruct p; discriminate. }
  split; [exact Hbound|]. split.
  - intros t Ht. destruct (Hcases t Ht) as (key & p & Hq & [[_ Hb] | Ha]).
    + now left.
    + right. eapply step_measure; eauto.
  - intros t Ht Hmany. destruct (Hcases t Ht) as (key & p & Hq & [[_ Hb] | Ha]).
    + exact Hb.
    + pose proof (work_counts (sizeMask i) sched s0 t _ Hq Ha). lia.
Qed.

Lemma concurrent_Observe_witness :
  reachable filter16
  /\ fst <$> Concurrent.calls
               (Concurrent.exec (sizeMask filter16) [0; 1; 1; 0; 0; 1]%nat
                  (Concurrent.start (hash filter16) (array filter16)
                     [bytes "b"; bytes "t"]))
     = [bytes "b"; bytes "t"].
Proof.
  split; [exact reachable_filter16|].
  exact (proj1 (proj1 (concurrent_Observe filter16 [bytes "b"; bytes "t"]
                         [0; 1; 1; 0; 0; 1]%nat reachable_filter16))).
Defined.

(** Two calls on slot 13 of the fresh 16-slot filter.  Both load the nil
    pointer; call 1 swaps first, the compare-and-swap of call 0 fails, and
    call 0 loads again and takes out the pointer of call 1. *)
Example contended_slot :
  let sched := [0; 0; 0; 0; 1; 1; 1; 1; 0; 1; 1; 0; 0; 0]%nat in
  let s := Concurrent.exec (sizeMask filter16) sched
             (Concurrent.start (hash filter16) (array filter16)
                [bytes "b"; bytes "t"]) in
  Concurrent.trace s
  = [(0%nat, 13, Some (Concurrent.Arg 1)); (1%nat, 13, None)]
  /\ Concurrent.array s !! 13%nat = Some (Some (Concurrent.Arg 0))
  /\ Concurrent.answer (array filter16) s 0 = Some false
  /\ Concurrent.answer (array filter16) s 1 = Some false.
Proof. repeat split; vm_compute; reflexivity. Qed.

(** The accumulator is shared without a lock: when two calls interleave
    their [Write]s, "alpha" is sent to slot 12, the slot of "beta", and not
    to its own slot 5. *)
Example shared_accumulator :
  let sched := [0; 1; 0; 1; 0; 0; 0; 0]%nat in
  let s := Concurrent.exec (sizeMask filter16) sched
             (Concurrent.start (hash filter16) (array filter16)
                [bytes "alpha"; bytes "beta"]) in
  Concurrent.calls s !! 0%nat
  = Some (bytes "alpha", Concurrent.Returned 12 None)
  /\ Observe_uindex filter16 (bytes "alpha") = Some 5.
Proof. split; vm_compute; reflexivity. Qed.

(** * Keys in the caller's memory *)

(** One call on headers does what the call on the bytes they show does. *)
Lemma Observe_view m i s :
  option_map (fun r => (fst r, view m (snd r))) (Aliased.Observe m i s)
  = Observe (view m i) (Aliased.load m s).
Proof.
  unfold Aliased.Observe, Observe, Observe_uindex, view.
  cbn [hash sizeMask array].
  destruct (Sum32 (fnv.Write (Aliased.hash i) (Aliased.load m s))) as [x|];
    [|reflexivity].
  unfold Aliased.getAndSet, getAndSet. rewrite length_fmap.
  destruct ((int32 (Z.land x (Aliased.sizeMask i)) <? 0)
            || (Z.of_nat (length (Aliased.array i))
                <=? int32 (Z.land x (Aliased.sizeMask i)))); [reflexivity|].
  rewrite list_lookup_fmap.
  destruct (Aliased.array i !! Z.to_nat (int32 (Z.land x (Aliased.sizeMask i))))
    as [old|]; [|reflexivity].
  cbn [option_map fmap option_fmap option_map fst snd Aliased.array
       Aliased.sizeMask Aliased.hash].
  rewrite list_fmap_insert. destruct old; reflexivity.
Qed.

Lemma Observe_slots m i s b i' handed :
  Aliased.Observe m i s = Some (b, i') ->
  slots_point_into handed i ->
  slots_point_into (Aliased.buf s :: handed) i'.
Proof.
  unfold Aliased.Observe.
  destruct (Sum32 (fnv.Write (Aliased.hash i) (Aliased.load m s))) as [x|];
    [|discriminate].
  unfold Aliased.getAndSet.
  destruct ((int32 (Z.land x (Aliased.sizeMask i)) <? 0)
            || (Z.of_nat (length (Aliased.array i))
                <=? int32 (Z.land x (Aliased.sizeMask i)))); [discriminate|].
  destruct (Aliased.array i !! Z.to_nat (int32 (Z.land x (Aliased.sizeMask i))))
    as [old|]; [|discriminate].
  intros [= _ <-] Hs j s' Hj. cbn [Aliased.array] in Hj.
  apply list_lookup_insert_Some in Hj as [(_ & [= <-] & _) | (_ & Hj)].
  - now left.
  - right. eauto.
Qed.

Lemma copy_load m b d s :
  Aliased.buf s <> b -> Aliased.load (Aliased.copy m b d) s = Aliased.load m s.
Proof.
  intros Hne. unfold Aliased.load, Aliased.copy.
  destruct (m !! b) as [a|]; [|reflexivity].
  now rewrite list_lookup_insert_ne by congruence.
Qed.

Lemma copy_view m b d i handed :
  slots_point_into handed i -> ~ In b handed ->
  view (Aliased.copy m b d) i = view m i.
Proof.
  intros Hs Hb. unfold view. f_equal. apply list_fmap_ext.
  intros j [s|] Hj; [|reflexivity]. cbn. f_equal. apply copy_load.
  intros <-. apply Hb. eauto.
Qed.

Lemma existsb_eqb_false b handed :
  existsb (Nat.eqb b) handed = false -> ~ In b handed.
Proof.
  intros H Hin. assert (existsb (Nat.eqb b) handed = true); [|congruence].
  apply existsb_exists. exists b. split; [exact Hin | apply Nat.eqb_refl].
Qed.

(** A program that keeps its hands off the arrays it has handed over gets
    the answers of the calls on the bytes, and leaves the filter those
    calls leave. *)
Lemma run_view prog m i handed :
  slots_point_into handed i ->
  Aliased.keeps_keys handed prog = true ->
  option_map (fun r => (fst r, view (fst (snd r)) (snd (snd r))))
             (Aliased.run m i prog)
  = ObserveAll (view m i) (Aliased.call_keys m prog).
Proof.
  revert m i handed. induction prog as [|[s|b d] rest IH]; intros m i handed Hs Hk.
  - reflexivity.
  - cbn [Aliased.run Aliased.call_keys ObserveAll Aliased.keeps_keys] in *.
    rewrite <- Observe_view.
    destruct (Aliased.Observe m i s) as [[a i1]|] eqn:E; [|reflexivity].
    cbn [option_map fst snd].
    rewrite <- (IH m i1 (Aliased.buf s :: handed));
      [|eapply Observe_slots; eauto | exact Hk].
    destruct (Aliased.run m i1 rest) as [[bs [m' i']]|]; reflexivity.
  - cbn [Aliased.run Aliased.call_keys Aliased.keeps_keys] in *.
    apply andb_true_iff in Hk as [Hb Hk]. apply negb_true_iff in Hb.
    rewrite <- (copy_view m b d i handed Hs (existsb_eqb_false _ _ Hb)).
    exact (IH (Aliased.copy m b d) i handed Hs Hk).
Qed.

Lemma New_view size i m :
  Aliased.NewInverseBloomFilter size = inr i ->
  NewInverseBloomFilter size = inr (view m i) /\ slots_point_into [] i.
Proof.
  unfold Aliased.NewInverseBloomFilter, NewInverseBloomFilter.
  destruct (MaxSize <? size); [discriminate|].
  destruct (size <=? 0); [discriminate|].
  intros [= <-]. unfold view. cbn [Aliased.array Aliased.sizeMask Aliased.hash].
  rewrite fmap_replicate. split; [reflexivity|].
  intros j s Hj. apply lookup_replicate in Hj as [[=] _].
Qed.

Lemma well_formed_view m m' i : well_formed (view m i) -> well_formed (view m' i).
Proof.
  unfold well_formed, Size, view. cbn [array sizeMask hash].
  now rewrite !length_fmap.
Qed.

Lemma run_ObserveAll size i m prog bs r :
  Aliased.NewInverseBloomFilter size = inr i ->
  Aliased.keeps_keys [] prog = true ->
  Aliased.run m i prog = Some (bs, r) ->
  NewInverseBloomFilter size = inr (view m i)
  /\ ObserveAll (view m i) (Aliased.call_keys m prog)
     = Some (bs, view (fst r) (snd r)).
Proof.
  intros Hnew Hk Hrun. destruct (New_view size i m Hnew) as [Hv Hs].
  split; [exact Hv|].
  rewrite <- (run_view prog m i [] Hs Hk), Hrun. reflexivity.
Qed.

(** No false positive for a caller that keeps the keys: when a program of
    calls and copies on a fresh filter never copies into a backing array
    it has handed to a call, a call that answers [true] for bytes that are
    not empty follows a call that was given the same bytes. *)
Theorem no_false_positive_kept_keys size i m prog bs r n k :
  Aliased.NewInverseBloomFilter size = inr i ->
  Aliased.keeps_keys [] prog = true ->
  Aliased.run m i prog = Some (bs, r) ->
  Aliased.call_keys m prog !! n = Some k -> bs !! n = Some true -> k <> [] ->
  exists n', (n' < n)%nat /\ Aliased.call_keys m prog !! n' = Some k.
Proof.
  intros Hnew Hk Hrun Hn Hb Hne.
  destruct (run_ObserveAll size i m prog bs r Hnew Hk Hrun) as [Hv Hall].
  exact (no_false_positive size _ _ _ _ n k Hv Hall Hn Hb Hne).
Qed.

(** The answers of such a program, exactly: a call answers [true] when its
    bytes equal those of the latest earlier call sent to its slot, and,
    when there is none, when it has no bytes. *)
Theorem answers_kept_keys size i m prog bs r n k u :
  Aliased.NewInverseBloomFilter size = inr i ->
  Aliased.keeps_keys [] prog = true ->
  Aliased.run m i prog = Some (bs, r) ->
  Aliased.call_keys m prog !! n = Some k ->
  Observe_uindex (view m i) k = Some u ->
  bs !! n
  = Some (bytes_Equal
            (default [] (last_routed (view m i) u
                           (take n (Aliased.call_keys m prog)) None)) k).
Proof.
  intros Hnew Hk Hrun Hn Hu.
  destruct (run_ObserveAll size i m prog bs r Hnew Hk Hrun) as [Hv Hall].
  pose proof (New_well_formed _ _ Hv) as Hwf.
  destruct (uindex_bounds _ _ _ Hwf Hu) as (Hu0 & Hlt & _).
  apply (ObserveAll_answer_wf _ _ _ _ n k u None Hwf Hall Hn Hu).
  apply (New_slots_empty size _ _ Hv). unfold Size in Hlt. lia.
Qed.

(** The slots after such a program: each shows the bytes of the last call
    sent to it, and is nil when no call was. *)
Theorem slots_kept_keys size i m prog bs m' i' j :
  Aliased.NewInverseBloomFilter size = inr i ->
  Aliased.keeps_keys [] prog = true ->
  Aliased.run m i prog = Some (bs, (m', i')) ->
  (j < length (Aliased.array i))%nat ->
  option_map (Aliased.load m') <$> Aliased.array i' !! j
  = Some (last_routed (view m i) (Z.of_nat j) (Aliased.call_keys m prog) None).
Proof.
  intros Hnew Hk Hrun Hj.
  destruct (run_ObserveAll size i m prog bs _ Hnew Hk Hrun) as [Hv Hall].
  pose proof (New_well_formed _ _ Hv) as Hwf.
  assert (H0 : array (view m i) !! j = Some None).
  { apply (New_slots_empty size _ _ Hv). unfold view. cbn [array].
    now rewrite length_fmap. }
  pose proof (ObserveAll_slots_wf _ _ _ _ j None Hwf Hall H0) as H.
  cbn [fst snd] in H. unfold view at 1 in H. cbn [array] in H.
  now rewrite list_lookup_fmap in H.
Qed.

(** Eviction with slices: two slices that show different bytes of one
    slot, the first observed again after the second, with no copy in
    between.  The second and the third call answer [false]. *)
Theorem eviction_slices size i m s1 s2 :
  Aliased.NewInverseBloomFilter size = inr i ->
  Aliased.load m s1 <> Aliased.load m s2 ->
  Observe_uindex (view m i) (Aliased.load m s1)
  = Observe_uindex (view m i) (Aliased.load m s2) ->
  exists r,
    Aliased.run m i [Aliased.Call s1; Aliased.Call s2; Aliased.Call s1]
    = Some ([bytes_Equal [] (Aliased.load m s1); false; false], r).
Proof.
  intros Hnew Hne Hidx. destruct (New_view size i m Hnew) as [Hv Hs].
  pose proof (New_well_formed _ _ Hv) as Hwf.
  destruct (well_formed_uindex _ (Aliased.load m s1) Hwf) as (Hu1 & _).
  destruct (well_formed_uindex _ (Aliased.load m s2) Hwf) as (Hu2 & _).
  assert (Hidx' : Spec.index (Size (view m i)) (Aliased.load m s1)
                  = Spec.index (Size (view m i)) (Aliased.load m s2)) by congruence.
  destruct (eviction size _ _ _ Hv Hne Hidx')
    as (i1 & i2 & i3 & H1 & H2 & H3 & _).
  pose proof (run_view [Aliased.Call s1; Aliased.Call s2; Aliased.Call s1]
                m i [] Hs eq_refl) as Hrun.
  cbn [Aliased.call_keys ObserveAll] in Hrun. rewrite H1, H2, H3 in Hrun.
  destruct (Aliased.run m i [Aliased.Call s1; Aliased.Call s2; Aliased.Call s1])
    as [[bs r]|]; [|discriminate].
  injection Hrun as -> _. eauto.
Qed.

Lemma Observe_stores m i s b i1 :
  well_formed (view m i) ->
  Aliased.Observe m i s = Some (b, i1) ->
  Aliased.array i1 !! Z.to_nat (Spec.index (Size (view m i)) (Aliased.load m s))
  = Some (Some s)
  /\ Size (view m i1) = Size (view m i).
Proof.
  intros Hwf H.
  destruct (well_formed_uindex _ (Aliased.load m s) Hwf) as (Hu & Hr & H32).
  unfold Observe_uindex, view in Hu. cbn [hash sizeMask] in Hu.
  unfold Aliased.Observe in H.
  destruct (Sum32 (fnv.Write (Aliased.hash i) (Aliased.load m s))) as [x|];
    [|discriminate].
  injection Hu as Hu. fold (view m i) in Hu. rewrite Hu, H32 in H.
  unfold Aliased.getAndSet in H.
  destruct ((Spec.index (Size (view m i)) (Aliased.load m s) <? 0)
            || (Z.of_nat (length (Aliased.array i))
                <=? Spec.index (Size (view m i)) (Aliased.load m s)));
    [discriminate|].
  destruct (Aliased.array i !! Z.to_nat (Spec.index (Size (view m i)) (Aliased.load m s)))
    as [old|] eqn:E; [|discriminate].
  injection H as _ <-. cbn [Aliased.array]. split.
  - apply list_lookup_insert_eq. eapply lookup_lt_Some; eauto.
  - unfold Size, view. cbn [array Aliased.array].
    now rewrite !length_fmap, length_insert.
Qed.

Lemma load_whole m b a :
  m !! b = Some a -> Aliased.load m (Aliased.mkSlice b 0 (length a)) = a.
Proof.
  intros H. unfold Aliased.load. cbn [Aliased.buf Aliased.lo Aliased.hi].
  rewrite H, Nat.sub_0_r. cbn [skipn]. apply firstn_all.
Qed.

Lemma copy_whole m b a d :
  m !! b = Some a -> length d = length a ->
  Aliased.copy m b d !! b = Some d.
Proof.
  intros H Hlen. unfold Aliased.copy. rewrite H.
  rewrite list_lookup_insert_eq by (eapply lookup_lt_Some; eauto).
  rewrite <- Hlen, firstn_all, skipn_all2 by lia. now rewrite app_nil_r.
Qed.

(** A reused buffer gives a false positive.  The caller observes a whole
    backing array, copies other bytes of the same length and the same slot
    into it, and observes it again: the second call answers [true],
    although the bytes it is given were given to no call before. *)
Theorem reused_buffer_false_positive size i m b a d :
  Aliased.NewInverseBloomFilter size = inr i ->
  m !! b = Some a -> length d = length a -> d <> a ->
  Observe_uindex (view m i) d = Observe_uindex (view m i) a ->
  let key := Aliased.mkSlice b 0 (length a) in
  let prog := [Aliased.Call key; Aliased.Copy b d; Aliased.Call key] in
  Aliased.call_keys m prog = [a; d]
  /\ exists r, Aliased.run m i prog = Some ([bytes_Equal [] a; true], r).
Proof.
  intros Hnew Hm Hlen Hda Hidx key prog.
  assert (Hload : Aliased.load m key = a) by exact (load_whole m b a Hm).
  pose proof (copy_whole m b a d Hm Hlen) as Hm'.
  assert (Hload' : Aliased.load (Aliased.copy m b d) key = d).
  { unfold key. rewrite <- Hlen. now apply load_whole. }
  split; [unfold prog; cbn [Aliased.call_keys]; now rewrite Hload' , Hload|].
  destruct (New_view size i m Hnew) as [Hv _].
  pose proof (New_well_formed _ _ Hv) as Hwf.
  destruct (first_Observe size _ a Hv) as [F1 HF1].
  pose proof (Observe_view m i key) as E1.
  rewrite Hload, HF1 in E1.
  destruct (Aliased.Observe m i key) as [[b1 i1]|] eqn:O1; [|discriminate].
  cbn [option_map fst snd] in E1. injection E1 as -> HF.
  destruct (Observe_stores m i key _ i1 Hwf O1) as [Hslot Hsz].
  rewrite Hload in Hslot.
  assert (Hwf1 : well_formed (view (Aliased.copy m b d) i1)).
  { apply (well_formed_view m). rewrite HF.
    eapply Observe_well_formed; eauto. }
  destruct (Observe_step _ d Hwf1) as (old & Hold & O2).
  assert (Hsz' : Size (view (Aliased.copy m b d) i1) = Size (view m i)).
  { rewrite <- Hsz. unfold Size, view. cbn [array]. now rewrite !length_fmap. }
  destruct (well_formed_uindex _ d Hwf) as (Hud & _).
  destruct (well_formed_uindex _ a Hwf) as (Hua & _).
  assert (Hsame : Spec.index (Size (view m i)) d = Spec.index (Size (view m i)) a)
    by congruence.
  rewrite Hsz', Hsame in Hold, O2.
  change (array (view (Aliased.copy m b d) i1))
    with (option_map (Aliased.load (Aliased.copy m b d)) <$> Aliased.array i1) in Hold.
  rewrite list_lookup_fmap, Hslot in Hold. cbn [fmap option_fmap option_map] in Hold.
  rewrite Hload' in Hold. injection Hold as <-.
  cbn [default from_option id] in O2. rewrite bytes_Equal_refl in O2.
  pose proof (Observe_view (Aliased.copy m b d) i1 key) as E2.
  rewrite Hload', O2 in E2.
  destruct (Aliased.Observe (Aliased.copy m b d) i1 key) as [[b2 i2]|] eqn:O2';
    [|discriminate].
  cbn [option_map fst snd] in E2. injection E2 as -> _.
  unfold prog. cbn [Aliased.run]. rewrite O1, O2'. eauto.
Qed.

Lemma reused_buffer_false_positive_witness :
  Aliased.NewInverseBloomFilter 10
  = inr (Aliased.mkFilter (replicate 16 None) 15 fnv.offset32)
  /\ [bytes "b"] !! 0%nat = Some (bytes "b")
  /\ length (bytes "t") = length (bytes "b")
  /\ bytes "t" <> bytes "b"
  /\ exists r,
       Aliased.run [bytes "b"] (Aliased.mkFilter (replicate 16 None) 15 fnv.offset32)
         [Aliased.Call (Aliased.mkSlice 0 0 1); Aliased.Copy 0 (bytes "t");
          Aliased.Call (Aliased.mkSlice 0 0 1)]
       = Some ([false; true], r).
Proof.
  assert (Hnew : Aliased.NewInverseBloomFilter 10
                 = inr (Aliased.mkFilter (replicate 16 None) 15 fnv.offset32))
    by reflexivity.
  assert (Hm : [bytes "b"] !! 0%nat = Some (bytes "b")) by reflexivity.
  assert (Hlen : length (bytes "t") = length (bytes "b")) by reflexivity.
  assert (Hne : bytes "t" <> bytes "b") by discriminate.
  assert (Hidx : Observe_uindex
                   (view [bytes "b"] (Aliased.mkFilter (replicate 16 None) 15 fnv.offset32))
                   (bytes "t")
                 = Observe_uindex
                     (view [bytes "b"] (Aliased.mkFilter (replicate 16 None) 15 fnv.offset32))
                     (bytes "b")) by (vm_compute; reflexivity).
  split; [exact Hnew|]. split; [exact Hm|]. split; [exact Hlen|]. split; [exact Hne|].
  exact (proj2 (reused_buffer_false_positive 10 _ [bytes "b"] 0%nat _ _
                  Hnew Hm Hlen Hne Hidx)).
Defined.

(** ** Witnesses on a concrete memory *)

Lemma New_aliased16 : Aliased.NewInverseBloomFilter 10 = inr aliased16.
Proof. reflexivity. Qed.

Lemma run_alpha_copy_alpha :
  Aliased.run memory3 aliased16
    [Aliased.Call slice_alpha; Aliased.Copy 1 (bytes "zeta"); Aliased.Call slice_alpha]
  = Some ([false; true],
          ([bytes "alpha"; bytes "zeta"; bytes "gamma"],
           Aliased.mkFilter (<[5%nat := Some slice_alpha]> (replicate 16 None))
                            15 fnv.offset32)).
Proof. vm_compute. reflexivity. Qed.

Lemma no_false_positive_kept_keys_witness :
  Aliased.NewInverseBloomFilter 10 = inr aliased16
  /\ Aliased.keeps_keys []
       [Aliased.Call slice_alpha; Aliased.Copy 1 (bytes "zeta"); Aliased.Call slice_alpha]
     = true
  /\ [false; true] !! 1%nat = Some true
  /\ bytes "alpha" <> []
  /\ exists n', (n' < 1)%nat
       /\ Aliased.call_keys memory3
            [Aliased.Call slice_alpha; Aliased.Copy 1 (bytes "zeta");
             Aliased.Call slice_alpha] !! n'
          = Some (bytes "alpha").
Proof.
  assert (Hk : Aliased.keeps_keys []
                 [Aliased.Call slice_alpha; Aliased.Copy 1 (bytes "zeta");
                  Aliased.Call slice_alpha] = true) by reflexivity.
  assert (Hb : [false; true] !! 1%nat = Some true) by reflexivity.
  assert (Hne : bytes "alpha" <> []) by discriminate.
  split; [exact New_aliased16|]. split; [exact Hk|]. split; [exact Hb|].
  split; [exact Hne|].
  exact (no_false_positive_kept_keys 10 aliased16 memory3 _ _ _ 1%nat (bytes "alpha")
           New_aliased16 Hk run_alpha_copy_alpha eq_refl Hb Hne).
Defined.

Lemma answers_kept_keys_witness :
  Aliased.NewInverseBloomFilter 10 = inr aliased16
  /\ Observe_uindex (view memory3 aliased16) (bytes "alpha") = Some 5
  /\ [false; true] !! 1%nat
     = Some (bytes_Equal
               (default [] (last_routed (view memory3 aliased16) 5
                              (take 1 (Aliased.call_keys memory3
                                         [Aliased.Call slice_alpha;
                                          Aliased.Copy 1 (bytes "zeta");
                                          Aliased.Call slice_alpha])) None))
               (bytes "alpha")).
Proof.
  assert (Hu : Observe_uindex (view memory3 aliased16) (bytes "alpha") = Some 5)
    by (vm_compute; reflexivity).
  split; [exact New_aliased16|]. split; [exact Hu|].
  exact (answers_kept_keys 10 aliased16 memory3
           [Aliased.Call slice_alpha; Aliased.Copy 1 (bytes "zeta");
            Aliased.Call slice_alpha]
           _ _ 1%nat (bytes "alpha") 5
           New_aliased16 eq_refl run_alpha_copy_alpha eq_refl Hu).
Defined.

Lemma run_beta_gamma :
  Aliased.run memory3 aliased16 [Aliased.Call slice_beta; Aliased.Call slice_gamma]
  = Some ([false; false],
          (memory3,
           Aliased.mkFilter (<[12%nat := Some slice_gamma]> (replicate 16 None))
                            15 fnv.offset32)).
Proof. vm_compute. reflexivity. Qed.

Lemma slots_kept_keys_witness :
  Aliased.NewInverseBloomFilter 10 = inr aliased16
  /\ (12 < length (Aliased.array aliased16))%nat
  /\ option_map (Aliased.load memory3)
       <$> <[12%nat := Some slice_gamma]> (replicate 16 None) !! 12%nat
     = Some (last_routed (view memory3 aliased16) 12
               (Aliased.call_keys memory3
                  [Aliased.Call slice_beta; Aliased.Call slice_gamma]) None).
Proof.
  assert (Hj : (12 < length (Aliased.array aliased16))%nat) by (cbn; lia).
  split; [exact New_aliased16|]. split; [exact Hj|].
  exact (slots_kept_keys 10 aliased16 memory3
           [Aliased.Call slice_beta; Aliased.Call slice_gamma] _ _ _ 12%nat
           New_aliased16 eq_refl run_beta_gamma Hj).
Defined.

Lemma eviction_slices_witness :
  Aliased.NewInverseBloomFilter 10 = inr aliased16
  /\ Aliased.load memory3 slice_beta <> Aliased.load memory3 slice_gamma
  /\ Observe_uindex (view memory3 aliased16) (Aliased.load memory3 slice_beta)
     = Observe_uindex (view memory3 aliased16) (Aliased.load memory3 slice_gamma)
  /\ exists r,
       Aliased.run memory3 aliased16
         [Aliased.Call slice_beta; Aliased.Call slice_gamma; Aliased.Call slice_beta]
       = Some ([bytes_Equal [] (Aliased.load memory3 slice_beta); false; false], r).
Proof.
  assert (Hne : Aliased.load memory3 slice_beta <> Aliased.load memory3 slice_gamma)
    by (vm_compute; discriminate).
  assert (Hidx : Observe_uindex (view memory3 aliased16) (Aliased.load memory3 slice_beta)
                 = Observe_uindex (view memory3 aliased16)
                     (Aliased.load memory3 slice_gamma))
    by (vm_compute; reflexivity).
  split; [exact New_aliased16|]. split; [exact Hne|]. split; [exact Hidx|].
  exact (eviction_slices 10 aliased16 memory3 slice_beta slice_gamma
           New_aliased16 Hne Hidx).
Defined.

(** The calls one at a time: the schedule that lets each call run to its
    end before the next gives the answers of the sequential calls. *)
Example one_at_a_time :
  let sched := [0; 0; 0; 0; 0; 0; 1; 1; 1; 1; 1; 1; 2; 2; 2; 2; 2; 2]%nat in
  let keys := [bytes "alpha"; bytes "alpha"; bytes "beta"] in
  let s := Concurrent.exec (sizeMask filter16) sched
             (Concurrent.start (hash filter16) (array filter16) keys) in
  [Concurrent.answer (array filter16) s 0; Concurrent.answer (array filter16) s 1;
   Concurrent.answer (array filter16) s 2]
  = [Some false; Some true; Some false]
  /\ option_map fst (ObserveAll filter16 keys) = Some [false; true; false].
Proof. split; vm_compute; reflexivity. Qed.

(** A compare-and-swap that follows its load with no step of another call
    in between succeeds: the call returns what the load found. *)
Lemma uncontended_swap mask t s key index old :
  Concurrent.calls s !! t = Some (key, Concurrent.Load index) ->
  Concurrent.array s !! Z.to_nat index = Some old ->
  Concurrent.calls (Concurrent.step mask t (Concurrent.step mask t s)) !! t
  = Some (key, Concurrent.Returned index old).
Proof.
  intros Ht Hold.
  assert (Hlt : (t < length (Concurrent.calls s))%nat)
    by (eapply lookup_lt_Some; eauto).
  unfold Concurrent.step at 2. rewrite Ht, Hold.
  unfold Concurrent.step, Concurrent.goto.
  cbn [Concurrent.calls Concurrent.array Concurrent.hash Concurrent.trace].
  rewrite list_lookup_insert_eq by exact Hlt.
  rewrite decide_True by exact Hold.
  cbn [Concurrent.calls]. apply list_lookup_insert_eq.
  now rewrite length_insert.
Qed.

(** The filter on bytes is exact for a caller who keeps the keys: a
    program that never copies into a backing array of [handed], nor into
    one it has handed to a call before, run on a filter whose slots point
    into [handed] only, gets from the code on slice headers the answers
    that the calls on the bytes give, and the filter they leave. *)
Theorem kept_keys_by_value prog m i handed :
  slots_point_into handed i ->
  Aliased.keeps_keys handed prog = true ->
  option_map (fun r => (fst r, view (fst (snd r)) (snd (snd r))))
             (Aliased.run m i prog)
  = ObserveAll (view m i) (Aliased.call_keys m prog).
Proof. apply run_view. Qed.

Lemma kept_keys_by_value_witness :
  slots_point_into [] aliased16
  /\ Aliased.keeps_keys []
       [Aliased.Call slice_alpha; Aliased.Copy 1 (bytes "zeta"); Aliased.Call slice_alpha]
     = true
  /\ option_map (fun r => (fst r, view (fst (snd r)) (snd (snd r))))
       (Aliased.run memory3 aliased16
          [Aliased.Call slice_alpha; Aliased.Copy 1 (bytes "zeta");
           Aliased.Call slice_alpha])
     = ObserveAll (view memory3 aliased16) [bytes "alpha"; bytes "alpha"].
Proof.
  assert (Hs : slots_point_into [] aliased16)
    by exact (proj2 (New_view 10 aliased16 memory3 New_aliased16)).
  assert (Hk : Aliased.keeps_keys []
                 [Aliased.Call slice_alpha; Aliased.Copy 1 (bytes "zeta");
                  Aliased.Call slice_alpha] = true) by reflexivity.
  split; [exact Hs|]. split; [exact Hk|].
  exact (kept_keys_by_value _ memory3 aliased16 [] Hs Hk).
Defined.


